(** * The shader preprocessor of [scripts/convert_shaders.py]

    A shallow embedding of [ShaderPreprocessor]: the five regular
    expressions it hands to [re.sub], the import callback with its include
    set, the binding callback with its counter, and the [preprocess]
    pipeline that ties them together. *)

From Stdlib Require Import List String Ascii Bool NArith Arith Lia ListSet.
From Stdlib Require Import Decimal DecimalString Sorted.
Import ListNotations.

Local Open Scope string_scope.
Local Open Scope N_scope.
Local Open Scope list_scope.

(** * The script

    ** Text

    A Python [str] is a sequence of code points. The model keeps the code
    points below 256, one [ascii] each; the shader sources are plain ASCII. *)

Definition text := list ascii.

Definition py (s : string) : text := list_ascii_of_string s.

Definition code (c : ascii) : N := N_of_ascii c.

Definition between (lo hi : N) (c : ascii) : bool :=
  (lo <=? code c) && (code c <=? hi).

Definition is_code (n : N) (c : ascii) : bool := code c =? n.

(** The classes [\s], [\d] and [\w] of a [str] pattern without flags, on
    the code points below 256. *)

Definition is_space (c : ascii) : bool :=
  between 9 13 c || between 28 32 c || is_code 133 c || is_code 160 c.

Definition is_digit (c : ascii) : bool := between 48 57 c.

Definition is_word (c : ascii) : bool :=
  between 48 57 c || between 65 90 c || is_code 95 c || between 97 122 c
  || is_code 170 c || between 178 179 c || is_code 181 c
  || between 185 186 c || between 188 190 c || between 192 214 c
  || between 216 246 c || between 248 255 c.

(** The class [[^>]]. *)
Definition not_gt (c : ascii) : bool := negb (Ascii.eqb c ">").

(** [f"{n}"] for a non-negative [int]. *)
Definition dec (n : N) : text := py (NilEmpty.string_of_uint (N.to_uint n)).

(** The line feed. *)
Definition nl : text := py (String "010" "").

(** [s.startswith(p)] *)
Fixpoint startswith (p s : text) : bool :=
  match p, s with
  | [], _ => true
  | a :: p', b :: s' => Ascii.eqb a b && startswith p' s'
  | _ :: _, [] => false
  end.

(** ** The fragment of [re] the script uses

    Every pattern of the script is a sequence of literals and of greedy
    one-or-more repetitions of a character class, some of them captured. *)

Inductive item : Type :=
  | Lit (l : text)                 (* literal characters     *)
  | Plus (cls : ascii -> bool)     (* [cls+]                 *)
  | Group (cls : ascii -> bool).   (* [(cls+)], a new group  *)

Definition pattern := list item.

(** The groups of a match, group 1 first, and the text after the match. *)
Definition found := option (list text * text).

(** Literal characters at the head of [s]; what follows them. *)
Fixpoint lit (l s : text) : option text :=
  match l, s with
  | [], _ => Some s
  | a :: l', b :: s' => if Ascii.eqb a b then lit l' s' else None
  | _ :: _, [] => None
  end.

(** [cls+] after its first character: take one more character when there
    is one, and give it back when the rest of the pattern fails. [taken]
    is what the repetition holds so far. *)
Fixpoint plus (cls : ascii -> bool) (k : text -> text -> found)
    (taken s : text) : found :=
  match s with
  | c :: s' =>
      if cls c then
        match plus cls k (taken ++ [c]) s' with
        | Some r => Some r
        | None => k taken s
        end
      else k taken s
  | [] => k taken s
  end.

Definition keep (g : text) (r : found) : found :=
  match r with
  | Some (gs, rest) => Some (g :: gs, rest)
  | None => None
  end.

(** [pattern.match] at the head of [s]. *)
Fixpoint match_here (p : pattern) (s : text) : found :=
  match p with
  | [] => Some ([], s)
  | Lit l :: p' =>
      match lit l s with
      | Some s' => match_here p' s'
      | None => None
      end
  | Plus cls :: p' =>
      match s with
      | c :: s' =>
          if cls c then plus cls (fun _ r => match_here p' r) [c] s'
          else None
      | [] => None
      end
  | Group cls :: p' =>
      match s with
      | c :: s' =>
          if cls c then plus cls (fun g r => keep g (match_here p' r)) [c] s'
          else None
      | [] => None
      end
  end.

(** What [re.sub] sees in [s]: the characters outside every match, and the
    matches, leftmost first and not overlapping. *)
Inductive segment : Type :=
  | Chr (c : ascii)
  | Hit (groups : list text).

(** [skip] counts the characters of the current match still to pass. No
    pattern of the script matches the empty string, so a match always
    passes its first character. *)
Fixpoint scan (p : pattern) (skip : nat) (s : text) : list segment :=
  match s with
  | [] => []
  | c :: s' =>
      match skip with
      | S k => scan p k s'
      | O =>
          match match_here p s with
          | Some (groups, rest) =>
              Hit groups :: scan p (List.length s' - List.length rest) s'
          | None => Chr c :: scan p 0 s'
          end
      end
  end.

(** ** State, exceptions and depth

    A computation changes the instance and then returns a value, or raises
    an exception, or does not come to an end: [Unfinished] stands for a
    recursion that the given depth does not finish. The instance is there
    in all three cases. The interpreter's own recursion limit is not a
    part of the model: CPython ends a recursion that deep with a
    [RecursionError]. *)

Inductive outcome (A : Type) : Type :=
  | Ok (a : A)             (* the call returns [a]                      *)
  | Raise (msg : text)     (* an exception [e] leaves it; [msg] is [str(e)] *)
  | Unfinished.

Arguments Ok {A} a.
Arguments Raise {A} msg.
Arguments Unfinished {A}.

Definition M (St A : Type) : Type := St -> St * outcome A.

Definition ret {St A} (a : A) : M St A := fun st => (st, Ok a).

(** [raise] *)
Definition raise {St A} (msg : text) : M St A := fun st => (st, Raise msg).

Definition bind {St A B} (m : M St A) (f : A -> M St B) : M St B :=
  fun st =>
    match m st with
    | (st1, Ok a) => f a st1
    | (st1, Raise msg) => (st1, Raise msg)
    | (st1, Unfinished) => (st1, Unfinished)
    end.

Notation "x <- m ;; k" := (bind m (fun x => k))
  (at level 61, m at next level, right associativity).

(** [try: m] with [except Exception as e: handler(str(e))] *)
Definition try_except {St A} (m : M St A) (handler : text -> M St A)
    : M St A :=
  fun st =>
    match m st with
    | (st1, Raise msg) => handler msg st1
    | r => r
    end.

(** [re.sub(p, f, s)] with a function [f]: called once per match, in the
    order of the matches; [nth 0 groups []] is [match.group(1)]. *)
Fixpoint splice {St} (f : list text -> M St text) (segs : list segment)
    : M St text :=
  match segs with
  | [] => ret []
  | Chr c :: more => out <- splice f more ;; ret (c :: out)
  | Hit groups :: more =>
      new <- f groups ;; out <- splice f more ;; ret (new ++ out)
  end.

Definition re_sub {St} (p : pattern) (f : list text -> M St text) (s : text)
    : M St text :=
  splice f (scan p 0 s).

Definition group1 (groups : list text) : text := nth 0 groups [].

(** [s.replace(old, new)] for a non-empty [old]. *)
Fixpoint replace_segs (new : text) (segs : list segment) : text :=
  match segs with
  | [] => []
  | Chr c :: more => c :: replace_segs new more
  | Hit _ :: more => new ++ replace_segs new more
  end.

Definition str_replace (old new s : text) : text :=
  replace_segs new (scan [Lit old] 0 s).

(** ** The instance and the include directory *)

Definition text_eq_dec : forall a b : text, {a = b} + {a <> b} :=
  list_eq_dec ascii_dec.

Record ShaderPreprocessor : Type := {
  include_dir : text;
  included_files : set text;
  binding_counter : N;
  (* Not in the script: the indices [add_binding] has handed out, oldest
     first. Nothing reads it. *)
  issued : list N
}.

(** [ShaderPreprocessor(include_dir)] *)
Definition new_preprocessor (dir : text) : ShaderPreprocessor :=
  {| include_dir := dir; included_files := empty_set text;
     binding_counter := 0; issued := [] |}.

(** What [full_path.exists()] and [open(full_path).read()] meet. The
    exception of [Unreadable] is raised inside the [try] of
    [replace_import]. The exception of [Inaccessible] is raised by
    [exists()], which stands in front of the [try]: the pathlib of
    Python 3.11 passes on every [OSError] of [stat] but the four that say
    that the file is not there, so a name that is too long or a directory
    that may not be searched ends the call. *)
Inductive file : Type :=
  | Missing                     (* [exists()] is false *)
  | Readable (content : text)   (* [read()] returns [content] *)
  | Unreadable (msg : text)     (* [open] or [read] raises; [msg] is [str(e)] *)
  | Inaccessible (msg : text).  (* [exists()] raises; [msg] is [str(e)] *)

Record filesystem : Type := {
  (* [str(include_dir / filename)] *)
  joinpath : text -> text -> text;
  lookup : text -> file
}.

(** ** The patterns *)

(** [#version\s+\d+] *)
Definition version_re : pattern :=
  [Lit (py "#version"); Plus is_space; Plus is_digit].

(** [#moj_import\s+<([^>]+)>] *)
Definition import_re : pattern :=
  [Lit (py "#moj_import"); Plus is_space; Lit (py "<"); Group not_gt;
   Lit (py ">")].

(** [precision\s+\w+\s+\w+;] *)
Definition precision_re : pattern :=
  [Lit (py "precision"); Plus is_space; Plus is_word; Plus is_space;
   Plus is_word; Lit (py ";")].

(** [layout\(std140\)\s+uniform\s+(\w+)] *)
Definition layout_re : pattern :=
  [Lit (py "layout(std140)"); Plus is_space; Lit (py "uniform");
   Plus is_space; Group is_word].

(** [uniform\s+sampler2D\s+(\w+);] *)
Definition sampler_re : pattern :=
  [Lit (py "uniform"); Plus is_space; Lit (py "sampler2D"); Plus is_space;
   Group is_word; Lit (py ";")].

(** ** The preprocessor *)

Definition Pre := M ShaderPreprocessor.

Definition get : Pre ShaderPreprocessor := fun self => (self, Ok self).

(** [self.included_files = set()] *)
Definition reset_included : Pre unit :=
  fun self =>
    ({| include_dir := include_dir self; included_files := empty_set text;
        binding_counter := binding_counter self; issued := issued self |},
     Ok tt).

(** [self.included_files.add(path)] *)
Definition include (path : text) : Pre unit :=
  fun self =>
    ({| include_dir := include_dir self;
        included_files := set_add text_eq_dec path (included_files self);
        binding_counter := binding_counter self; issued := issued self |},
     Ok tt).

(** [replace_import], with [preprocess] for the included file passed in.
    The [try] holds the reading and the nested call; [exists()] and the
    adding to the set stand in front of it. *)
Definition replace_import (fs : filesystem)
    (preprocess : text -> Pre text) (groups : list text) : Pre text :=
  let import_path := group1 groups in
  if startswith (py "minecraft:") import_path then
    let filename := str_replace (py "minecraft:") [] import_path in
    self <- get ;;
    let full_path := joinpath fs (include_dir self) filename in
    if set_mem text_eq_dec full_path (included_files self) then
      ret (py "// Already included: " ++ import_path ++ nl)
    else
      let failed e :=
        ret (py "// Error importing " ++ import_path ++ py ": " ++ e ++ nl) in
      match lookup fs full_path with
      | Inaccessible msg => raise msg
      | Readable content =>
          _ <- include full_path ;;
          try_except
            (included_source <- preprocess content ;;
             ret (py "// Import: " ++ import_path ++ nl
                  ++ included_source ++ nl))
            failed
      | Unreadable msg =>
          _ <- include full_path ;;
          try_except (raise msg) failed
      | Missing => ret (py "// Missing import: " ++ import_path ++ nl)
      end
  else ret (py "// Unknown import: " ++ import_path ++ nl).

(** [preprocess_moj_imports] *)
Definition preprocess_moj_imports (fs : filesystem)
    (preprocess : text -> Pre text) (source : text) : Pre text :=
  _ <- reset_included ;;
  re_sub import_re (replace_import fs preprocess) source.

(** [add_binding] *)
Definition add_binding (groups : list text) : Pre text :=
  fun self =>
    let binding := binding_counter self in
    ({| include_dir := include_dir self;
        included_files := included_files self;
        binding_counter := binding_counter self + 1;
        issued := issued self ++ [binding] |},
     Ok (py "layout(std140, binding=" ++ dec binding ++ py ") uniform "
           ++ group1 groups)).

(** The template [// SAMPLER: \1 - requires texture+sampler binding]. *)
Definition sampler_note (groups : list text) : text :=
  py "// SAMPLER: " ++ group1 groups
  ++ py " - requires texture+sampler binding".

(** [preprocess]. [depth] bounds the nesting of the calls; the argument
    [current_file] of the script is never read and is left out. *)
Fixpoint preprocess (depth : nat) (fs : filesystem) (source : text)
    : Pre text :=
  match depth with
  | O => fun self => (self, Unfinished)
  | S depth' =>
      source <- re_sub version_re (fun _ => ret []) source ;;
      source <- preprocess_moj_imports fs (preprocess depth' fs) source ;;
      source <- re_sub precision_re (fun _ => ret []) source ;;
      source <- re_sub layout_re add_binding source ;;
      re_sub sampler_re (fun g => ret (sampler_note g)) source
  end.

(** * What the statements speak of

    ** Reading a text *)

(** Some match of [p] starts somewhere in [s]. *)
Fixpoint occurs (p : pattern) (s : text) : bool :=
  match match_here p s with
  | Some _ => true
  | None =>
      match s with
      | [] => false
      | _ :: s' => occurs p s'
      end
  end.

(** [needle in s] *)
Definition contains (needle s : text) : bool := occurs [Lit needle] s.

(** [s.count(needle)] for a non-empty [needle]. *)
Definition count (needle s : text) : nat :=
  List.length
    (filter (fun g => match g with Hit _ => true | Chr _ => false end)
            (scan [Lit needle] 0 s)).

(** What [re.sub(p, '', s)] returns. *)
Definition erase (p : pattern) (s : text) : text :=
  replace_segs [] (scan p 0 s).

(** ** Matches in words *)

(** A match in words: [matched p m gs] when the text [m] is matched by
    [p] with the groups [gs]. *)
Inductive matched : pattern -> text -> list text -> Prop :=
  | matched_nil : matched [] [] []
  | matched_lit l p m gs :
      matched p m gs -> matched (Lit l :: p) (l ++ m) gs
  | matched_plus cls p x m gs :
      x <> [] -> Forall (fun c => cls c = true) x ->
      matched p m gs -> matched (Plus cls :: p) (x ++ m) gs
  | matched_group cls p x m gs :
      x <> [] -> Forall (fun c => cls c = true) x ->
      matched p m gs -> matched (Group cls :: p) (x ++ m) (x :: gs).

(** A character of a literal of [p]. *)
Definition needs (p : pattern) (c : ascii) : Prop :=
  exists l, In (Lit l) p /\ In c l.

(** The pattern opens with a literal character: every pattern of the
    script does. *)
Definition opens (p : pattern) : Prop :=
  match p with
  | Lit (_ :: _) :: _ => True
  | _ => False
  end.

(** Every segment comes from the text: a character of it, or groups made
    of its characters. *)
Definition seg_from (s : text) (g : segment) : Prop :=
  match g with
  | Chr c => In c s
  | Hit gs => forall x c, In x gs -> In c x -> In c s
  end.

(** The text does not go on with a character of the class. *)
Definition stops (cls : ascii -> bool) (s : text) : Prop :=
  match s with
  | [] => True
  | c :: _ => cls c = false
  end.

Definition all (cls : ascii -> bool) (s : text) : Prop :=
  Forall (fun c => cls c = true) s.

(** No match of [p] starts in [pre] when [rest] follows. *)
Fixpoint misses (p : pattern) (pre rest : text) : bool :=
  match pre with
  | [] => true
  | _ :: pre' =>
      match match_here p (pre ++ rest) with
      | Some _ => false
      | None => misses p pre' rest
      end
  end.

(** ** Instances and computations *)

Definition output {St} (r : St * outcome text) : outcome text := snd r.

(** The instance after [self.included_files = set()]. *)
Definition cleared (self : ShaderPreprocessor) : ShaderPreprocessor :=
  {| include_dir := include_dir self; included_files := empty_set text;
     binding_counter := binding_counter self; issued := issued self |}.

(** The instance after [self.included_files.add(path)]. *)
Definition added (path : text) (self : ShaderPreprocessor)
    : ShaderPreprocessor :=
  {| include_dir := include_dir self;
     included_files := set_add text_eq_dec path (included_files self);
     binding_counter := binding_counter self; issued := issued self |}.

(** [str(full_path)] for the path that a directive names. *)
Definition resolve (fs : filesystem) (self : ShaderPreprocessor)
    (import_path : text) : text :=
  joinpath fs (include_dir self) (str_replace (py "minecraft:") [] import_path).

(** The instance works on the directory [dir]. *)
Definition at_dir (dir : text) (self : ShaderPreprocessor) : Prop :=
  include_dir self = dir.


(** The computation comes to an end, or [P] is the case. *)
Definition blames {St A} (m : M St A) (P : Prop) : Prop :=
  forall st, snd (m st) = Unfinished -> P.

(** The computation raises only an exception that satisfies [P]. *)
Definition excuses {St A} (m : M St A) (P : text -> Prop) : Prop :=
  forall st e, snd (m st) = Raise e -> P e.


(** The computation, started from an instance that satisfies [I], returns
    with [I] still true and with a value that satisfies [Q]. *)
Definition gives {St A} (I : St -> Prop) (m : M St A) (Q : A -> Prop) : Prop :=
  forall st, I st -> exists st' a, m st = (st', Ok a) /\ I st' /\ Q a.






(** ** Sources *)

(** The tokens that announce a directive. *)
Definition moj_import_token : pattern := [Lit (py "#moj_import")].
Definition version_token : pattern := [Lit (py "#version")].
Definition precision_token : pattern := [Lit (py "precision")].
Definition layout_token : pattern :=
  [Lit (py "layout(std140)"); Plus is_space; Lit (py "uniform")].
Definition sampler_token : pattern :=
  [Lit (py "uniform"); Plus is_space; Lit (py "sampler2D")].

(** No token occurs in [s]. *)
Definition plain (s : text) : bool :=
  negb (occurs moj_import_token s) && negb (occurs version_token s)
  && negb (occurs precision_token s) && negb (occurs layout_token s)
  && negb (occurs sampler_token s).

(** No directive of the five shapes occurs in [s]. *)
Definition directive_free (s : text) : bool :=
  negb (occurs version_re s) && negb (occurs import_re s)
  && negb (occurs precision_re s) && negb (occurs layout_re s)
  && negb (occurs sampler_re s).

(** A character that takes no part in a directive. *)
Definition inert (c : ascii) : bool :=
  negb (Ascii.eqb c "#") && negb (Ascii.eqb c ">") && negb (Ascii.eqb c ";")
  && negb (Ascii.eqb c "(").

(** What [add_binding] returns for the index [n] and the block [name]. *)
Definition bound (n : N) (name : text) : text :=
  py "layout(std140, binding=" ++ dec n ++ py ") uniform " ++ name.

(** The passes of [preprocess] after the version pass. *)
Definition later_passes depth fs (source : text) : Pre text :=
  source <- preprocess_moj_imports fs (preprocess depth fs) source ;;
  source <- re_sub precision_re (fun _ => ret []) source ;;
  source <- re_sub layout_re add_binding source ;;
  re_sub sampler_re (fun g => ret (sampler_note g)) source.

(** ** Directories of the model *)

(** A directory of the model: [dir / name] is [dir], a slash and [name]. *)
Definition simple_join (dir name : text) : text := dir ++ py "/" ++ name.

Fixpoint text_eqb (a b : text) : bool :=
  match a, b with
  | [], [] => true
  | x :: a', y :: b' => Ascii.eqb x y && text_eqb a' b'
  | _, _ => false
  end.

(** The files of a directory, by full path; every other path is missing. *)
Fixpoint files (l : list (string * file)) (path : text) : file :=
  match l with
  | [] => Missing
  | (name, f) :: more => if text_eqb (py name) path then f else files more path
  end.

Definition directory (l : list (string * file)) : filesystem :=
  {| joinpath := simple_join; lookup := files l |}.

(** Some file can be read and [rec] does not return on its content. *)
Definition stuck_inside (fs : filesystem) (rec : text -> Pre text) : Prop :=
  exists path content self,
    lookup fs path = Readable content /\
    output (rec content self) = Unfinished.

(** [exists()] raises on some path of the directory, with the message
    [e]. *)
Definition inaccessible (fs : filesystem) (e : text) : Prop :=
  exists path, lookup fs path = Inaccessible e.

(** ** Sources and directories of the examples *)

(** An instance over the directory [include]. *)
Definition instance (files : set text) (counter : N) (log : list N)
    : ShaderPreprocessor :=
  {| include_dir := py "include"; included_files := files;
     binding_counter := counter; issued := log |}.

(** A source with one block, its output, and the instance after it. *)
Definition fog_source : text :=
  py "#version 150 layout(std140) uniform Fog { vec4 c; };".

Definition fog_output : text :=
  py " layout(std140, binding=0) uniform Fog { vec4 c; };".

Definition fog_instance : ShaderPreprocessor :=
  {| include_dir := py "include"; included_files := empty_set text;
     binding_counter := 1; issued := [0] |}.

(** Two files that import each other. *)
Definition a_imports_b : text := py "#moj_import <minecraft:b.glsl>".
Definition b_imports_a : text := py "#moj_import <minecraft:a.glsl>".

Definition cycle : filesystem :=
  directory [("include/a.glsl", Readable a_imports_b);
             ("include/b.glsl", Readable b_imports_a)].

(** A diamond: the source imports [b.glsl] and [c.glsl], and both import
    [d.glsl]. *)
Definition diamond_source : text :=
  py "#moj_import <minecraft:b.glsl>
#moj_import <minecraft:c.glsl>
".

Definition d_content : text := py "float fog_start;".

Definition diamond : filesystem :=
  directory [("include/b.glsl", Readable (py "#moj_import <minecraft:d.glsl>"));
             ("include/c.glsl", Readable (py "#moj_import <minecraft:d.glsl>"));
             ("include/d.glsl", Readable d_content)].

Definition diamond_output : text :=
  py "// Import: minecraft:b.glsl
// Import: minecraft:d.glsl
float fog_start;


// Import: minecraft:c.glsl
// Import: minecraft:d.glsl
float fog_start;


".

(** One file, imported twice by the same source. *)
Definition twice_source : text :=
  py "#moj_import <minecraft:d.glsl>
#moj_import <minecraft:d.glsl>
".

Definition twice_output : text :=
  py "// Import: minecraft:d.glsl
float fog_start;

// Import: minecraft:d.glsl
float fog_start;

".

Definition single : filesystem :=
  directory [("include/d.glsl", Readable d_content)].

(** A block [Foo], then the import of a file that declares a block [Bar]. *)
Definition foo_source : text :=
  py "layout(std140) uniform Foo { vec4 a; };
#moj_import <minecraft:bar.glsl>
".

Definition bar_content : text := py "layout(std140) uniform Bar { vec4 b; };".

Definition foo_bar : filesystem :=
  directory [("include/bar.glsl", Readable bar_content)].

(** The output for [foo_source] when [Foo] gets the index [foo] and [Bar]
    the index [bar]. *)
Definition foo_output (foo bar : N) : text :=
  bound foo (py "Foo") ++ py " { vec4 a; };
// Import: minecraft:bar.glsl
" ++ bound bar (py "Bar") ++ py " { vec4 b; };" ++ nl ++ nl.

(** A directory in which [fog.glsl] is missing and [sky.glsl] cannot be
    read. *)
Definition broken : filesystem :=
  directory [("include/sky.glsl", Unreadable (py "[Errno 13] Permission denied"))].

(** A directory in which [locked] may not be searched, so that
    [exists()] raises on the files in it. *)
Definition out_of_reach : filesystem :=
  directory
    [("include/locked/deep.glsl",
      Inaccessible (py "[Errno 13] Permission denied: 'include/locked/deep.glsl'"))].




(** A shader with the directives of the preprocessor of GLSL, and a
    directory for it. *)
Definition terrain_source : text := py "#version 150
#extension GL_ARB_explicit_attrib_location : enable
#pragma optimize(on)
#define FOG 1 // a # in a comment
#moj_import <minecraft:fog.glsl>
#moj_import <minecraft:light.glsl>
#moj_import <minecraft:locked.glsl>
#ifdef FOG
precision highp float;
layout(std140) uniform Terrain { vec4 c; };
#endif
void main() {}".

Definition terrain_files : filesystem :=
  directory
    [("include/fog.glsl", Readable (py "#version 330
#define FOG_START 1
#moj_import <minecraft:sky.glsl>
float fog;"));
     ("include/sky.glsl", Readable (py "#version 150
#ifndef SKY
uniform sampler2D Sky;
#endif"));
     ("include/locked.glsl",
      Unreadable (py "[Errno 13] Permission denied: 'include/locked.glsl'"))].

(** * The rest of the script

    ** Shader files and their names *)

(** [VERTEX_EXT], [FRAGMENT_EXT] *)
Definition VERTEX_EXT : text := py ".vsh".
Definition FRAGMENT_EXT : text := py ".fsh".

(** [name.rfind('.')], [None] for [-1]. *)
Fixpoint rfind_dot (name : text) : option nat :=
  match name with
  | [] => None
  | c :: name' =>
      match rfind_dot name' with
      | Some i => Some (S i)
      | None => if Ascii.eqb c "." then Some O else None
      end
  end.

(** The test [0 < i < len(name) - 1] of [PurePath.suffix] and
    [PurePath.stem] in the pathlib of Python 3.11, on the last component
    [name] of the path. *)
Definition splits (name : text) : option nat :=
  match rfind_dot name with
  | Some i =>
      if Nat.ltb 0 i && Nat.ltb i (List.length name - 1) then Some i else None
  | None => None
  end.

(** [input_file.suffix] *)
Definition suffix (name : text) : text :=
  match splits name with
  | Some i => skipn i name
  | None => []
  end.

(** [input_file.stem] *)
Definition stem (name : text) : text :=
  match splits name with
  | Some i => firstn i name
  | None => name
  end.

(** The stage that [process_shader] takes a file for; [None] when it
    skips the file. *)
Definition shader_stage (name : text) : option text :=
  if text_eqb (suffix name) VERTEX_EXT then Some (py "vertex")
  else if text_eqb (suffix name) FRAGMENT_EXT then Some (py "fragment")
  else None.

(** ["vert" if stage == "vertex" else "frag"] *)
Definition stage_suffix (stage : text) : text :=
  if text_eqb stage (py "vertex") then py "vert" else py "frag".

(** The name of [output_file]. *)
Definition output_name (name stage : text) : text :=
  stem name ++ py "." ++ stage_suffix stage ++ py ".wgsl".

(** ** The conversion *)

Definition stage_map : list (text * text) :=
  [(py "vertex", py "vert"); (py "fragment", py "frag");
   (py "compute", py "comp")].

(** [d.get(key, default)] *)
Fixpoint dict_get (d : list (text * text)) (key default : text) : text :=
  match d with
  | [] => default
  | (k, v) :: d' => if text_eqb k key then v else dict_get d' key default
  end.

(** [naga_stage] *)
Definition naga_stage (shader_stage : text) : text :=
  dict_get stage_map shader_stage shader_stage.

(** What happens to the temporary files. *)
Inductive naga_run : Type :=
  | No_temp (msg : text)      (* writing [/tmp/temp_shader.glsl] raises  *)
  | Converted (wgsl : text)   (* return code 0, and the output as read   *)
  | Rejected (stderr : text)  (* another return code                     *)
  | Raised (msg : text).      (* [subprocess.run] or the reading raises  *)

(** The machine the script runs on: [naga stage source] for a run of the
    tool, and whether an output file of a given name can be written. *)
Record machine : Type := {
  naga : text -> text -> naga_run;
  can_write : text -> bool
}.

(** [convert_glsl_to_wgsl]: the text to write, or the message of the
    exception that leaves the function. *)
Definition convert_glsl_to_wgsl (m : machine) (glsl_source shader_stage : text)
    : text + text :=
  match naga m (naga_stage shader_stage) glsl_source with
  | No_temp msg => inr msg
  | Converted wgsl => inl wgsl
  | Rejected stderr =>
      inl (py "// Conversion failed: " ++ stderr ++ nl ++ glsl_source)
  | Raised msg =>
      inl (py "// Conversion error: " ++ msg ++ nl ++ glsl_source)
  end.

(** A shader file as [process_shader] reads it: its name and its text.
    The reading itself is not in the model, nor is what the script
    prints. *)
Definition shader : Type := text * text.

(** An output file: its name in the output directory and its text. *)
Definition written : Type := text * text.

(** [process_shader]: the files it writes. *)
Definition process_shader (m : machine) (depth : nat) (fs : filesystem)
    (input_file : shader) : Pre (list written) :=
  let (name, source) := input_file in
  match shader_stage name with
  | None => ret []
  | Some stage =>
      preprocessed <- preprocess depth fs source ;;
      match convert_glsl_to_wgsl m preprocessed stage with
      | inl wgsl =>
          let output_file := output_name name stage in
          if can_write m output_file then ret [(output_file, wgsl)]
          else ret []
      | inr _ => ret []
      end
  end.

(** The loops of [main] over the files that a glob yields. *)
Fixpoint process_all (m : machine) (depth : nat) (fs : filesystem)
    (shaders : list shader) : Pre (list written) :=
  match shaders with
  | [] => ret []
  | shader_file :: more =>
      first <- process_shader m depth fs shader_file ;;
      others <- process_all m depth fs more ;;
      ret (first ++ others)
  end.

(** [main]: [core] is what [core_dir.glob("*.vsh")] and
    [core_dir.glob("*.fsh")] yield, and [None] when [core_dir] does not
    exist. The result is the instance at the end and the files written,
    in the order of the writing. *)
Definition main (m : machine) (depth : nat) (fs : filesystem)
    (include_dir : text) (core : option (list shader * list shader))
    : ShaderPreprocessor * outcome (list written) :=
  let preprocessor := new_preprocessor include_dir in
  match core with
  | Some (vsh, fsh) =>
      (vertex <- process_all m depth fs vsh ;;
       fragment <- process_all m depth fs fsh ;;
       ret (vertex ++ fragment)) preprocessor
  | None => (preprocessor, Ok [])
  end.

(** ** More words for the statements *)

(** The computation, when it comes to an end, by a return or by an
    exception, leaves an instance that satisfies [I]. *)
Definition lands {St A} (m : M St A) (I : St -> Prop) : Prop :=
  forall st st' r, m st = (st', r) -> r <> Unfinished -> I st'.

(** The computation, when it comes to an end, has kept [I]. *)
Definition carries {St A} (I : St -> Prop) (m : M St A) : Prop :=
  forall st st' r, I st -> m st = (st', r) -> r <> Unfinished -> I st'.

(** Every path of the include set is one of a file that could not be
    read. *)
Definition failures_only (fs : filesystem) (self : ShaderPreprocessor)
    : Prop :=
  forall path,
    set_In path (included_files self) ->
    exists msg, lookup fs path = Unreadable msg.

(** [len(re.findall(p, s))] *)
Definition findings (p : pattern) (s : text) : nat :=
  List.length
    (filter (fun g => match g with Hit _ => true | Chr _ => false end)
            (scan p 0 s)).

(** The indices from [n] on, [k] of them. *)
Definition from (n : N) (k : nat) : list N :=
  map (fun i => n + N.of_nat i) (seq 0 k).

(** The instance after [k] more calls of [add_binding]. *)
Definition moved (k : nat) (self : ShaderPreprocessor) : ShaderPreprocessor :=
  {| include_dir := include_dir self; included_files := included_files self;
     binding_counter := binding_counter self + N.of_nat k;
     issued := issued self ++ from (binding_counter self) k |}.


(** The matches of the block pattern that the binding pass meets in a
    source. *)
Definition blocks_in (source : text) : nat :=
  findings layout_re (erase precision_re (erase version_re source)).



(** The directives, from their parts. *)
Definition import_directive (ws path : text) : text :=
  py "#moj_import" ++ ws ++ py "<" ++ path ++ py ">".

Definition block_declaration (ws1 ws2 name : text) : text :=
  py "layout(std140)" ++ ws1 ++ py "uniform" ++ ws2 ++ name.

Definition sampler_declaration (ws1 ws2 name : text) : text :=
  py "uniform" ++ ws1 ++ py "sampler2D" ++ ws2 ++ name ++ py ";".

Definition precision_declaration (ws1 qualifier ws2 type : text) : text :=
  py "precision" ++ ws1 ++ qualifier ++ ws2 ++ type ++ py ";".

(** No precision qualifier, block or sampler of the shapes of the last
    three passes occurs in [s]. *)
Definition settled (s : text) : bool :=
  negb (occurs precision_re s) && negb (occurs layout_re s)
  && negb (occurs sampler_re s).

(** A run of blanks. *)
Definition blanks (ws : text) : Prop := ws <> [] /\ all is_space ws.

(** An identifier as [\w+] takes it. *)
Definition word (name : text) : Prop := name <> [] /\ all is_word name.

(** A text that does not go on with the identifier in front of it. *)
Definition apart (s : text) : Prop := s <> [] /\ stops is_word s.

(** ** Sources in which every [#] is in its place *)

(** The word at the head of a text: the characters of [\w] that it
    begins with. *)
Fixpoint head_word (s : text) : text :=
  match s with
  | c :: s' => if is_word c then c :: head_word s' else []
  | [] => []
  end.

(** What follows the word at the head of a text. *)
Fixpoint after_word (s : text) : text :=
  match s with
  | c :: s' => if is_word c then after_word s' else s
  | [] => []
  end.

(** The text opens with a version directive. *)
Definition opens_version_directive (t : text) : bool :=
  match match_here version_re t with
  | Some _ => true
  | None => false
  end.

(** A word that no pass turns into [version]: it does not begin with
    [v], and [precision] does not occur in it. The empty word is one. *)
Definition quiet (w : text) : bool :=
  negb (startswith (py "v") w) && negb (contains (py "precision") w).

(** Every [#] of [x] has a quiet word after it, when [y] follows [x]. *)
Fixpoint calm (x y : text) : bool :=
  match x with
  | [] => true
  | c :: x' =>
      (if Ascii.eqb c "#" then quiet (head_word (x' ++ y)) else true)
      && calm x' y
  end.

(** Every [#] of the source opens a version directive, or it has a quiet
    word after it and no version directive opens where that word ends. *)
Fixpoint orderly (s : text) : bool :=
  match s with
  | [] => true
  | c :: s' =>
      (if Ascii.eqb c "#" then
         opens_version_directive s
         || quiet (head_word s')
            && negb (opens_version_directive (after_word s'))
       else true)
      && orderly s'
  end.

(** A file that can be read is an orderly source, and the message of one
    that cannot is calm. *)
Definition orderly_file (f : file) : bool :=
  match f with
  | Missing => true
  | Readable content => orderly content
  | Unreadable msg => calm msg []
  | Inaccessible msg => calm msg []
  end.

Definition orderly_files (fs : filesystem) : Prop :=
  forall path, orderly_file (lookup fs path) = true.

(** The imports of the source lead, through at most [nesting] files one
    inside the other, to paths on which [exists()] answers. *)
Fixpoint settles (fs : filesystem) (dir : text) (nesting : nat) (s : text)
    : bool :=
  forallb
    (fun g =>
       match g with
       | Chr _ => true
       | Hit gs =>
           if startswith (py "minecraft:") (group1 gs) then
             match lookup fs (joinpath fs dir
                                (str_replace (py "minecraft:") [] (group1 gs)))
             with
             | Missing => true
             | Unreadable _ => true
             | Inaccessible _ => false
             | Readable content =>
                 match nesting with
                 | O => false
                 | S n => settles fs dir n content
                 end
             end
           else true
       end)
    (scan import_re 0 (erase version_re s)).

(** * Proofs

    ** The matcher *)

Lemma lit_Some (l s r : text) : lit l s = Some r <-> s = l ++ r.
Proof.
  revert s; induction l as [|a l IH]; intros s; simpl.
  - split; intros H; [now inversion H | now subst].
  - destruct s as [|b s].
    + split; intros H; discriminate.
    + destruct (Ascii.eqb a b) eqn:E.
      * apply Ascii.eqb_eq in E; subst b.
        rewrite IH; split; intros H; [now subst | now inversion H].
      * apply Ascii.eqb_neq in E.
        split; intros H; [discriminate | inversion H; congruence].
Qed.

Lemma lit_refl (l r : text) : lit l (l ++ r) = Some r.
Proof. now apply lit_Some. Qed.

(** What a successful repetition took: characters of the class, up to the
    point where the rest of the pattern went on. *)
Lemma plus_inv cls k (taken s : text) r :
  plus cls k taken s = Some r ->
  exists more rest,
    s = more ++ rest /\ Forall (fun c => cls c = true) more /\
    k (taken ++ more) rest = Some r.
Proof.
  revert taken; induction s as [|c s IH]; intros taken H; simpl in H.
  - exists [], []; rewrite !app_nil_r; repeat split; auto.
  - destruct (cls c) eqn:Ec.
    + destruct (plus cls k (taken ++ [c]) s) as [r'|] eqn:E.
      * inversion H; subst r'.
        destruct (IH _ E) as (more & rest & -> & Hm & Hk).
        exists (c :: more), rest; repeat split; auto.
        now rewrite <- app_assoc in Hk.
      * exists [], (c :: s); rewrite app_nil_r; repeat split; auto.
    + exists [], (c :: s); rewrite app_nil_r; repeat split; auto.
Qed.

(** The repetition runs over every character of the class before it lets
    the rest of the pattern try. *)
Lemma plus_run cls k (taken run rest : text) r :
  Forall (fun c => cls c = true) run ->
  match rest with [] => True | c :: _ => cls c = false end ->
  k (taken ++ run) rest = Some r ->
  plus cls k taken (run ++ rest) = Some r.
Proof.
  intros Hrun Hstop; revert taken.
  induction Hrun as [|c run Hc _ IH]; intros taken Hk; simpl.
  - rewrite app_nil_r in Hk.
    destruct rest as [|c rest]; simpl; auto.
    now rewrite Hstop.
  - rewrite Hc, (IH (taken ++ [c])); auto.
    now rewrite <- app_assoc.
Qed.

(** A longer pattern matches only where a shorter one does. *)
Lemma plus_weaken cls (k1 k2 : text -> text -> found) taken s :
  (forall t r, k1 t r <> None -> k2 t r <> None) ->
  plus cls k1 taken s <> None -> plus cls k2 taken s <> None.
Proof.
  intros Hk; revert taken; induction s as [|c s IH]; intros taken; simpl.
  - apply Hk.
  - destruct (cls c); [|apply Hk].
    specialize (IH (taken ++ [c])).
    destruct (plus cls k1 (taken ++ [c]) s) eqn:E1;
      destruct (plus cls k2 (taken ++ [c]) s) eqn:E2; auto; try discriminate.
    intros _; exfalso; apply IH; [discriminate | reflexivity].
Qed.

Lemma keep_None g r : keep g r <> None <-> r <> None.
Proof. destruct r as [[gs rest]|]; simpl; split; congruence. Qed.

Lemma match_here_prefix (p q : pattern) (s : text) :
  match_here (p ++ q) s <> None -> match_here p s <> None.
Proof.
  revert s; induction p as [|[l|cls|cls] p IH]; intros s; simpl.
  - discriminate.
  - destruct (lit l s); auto.
  - destruct s as [|c s]; auto.
    destruct (cls c); auto.
    apply plus_weaken; intros; auto.
  - destruct s as [|c s]; auto.
    destruct (cls c); auto.
    apply plus_weaken; intros t r; rewrite !keep_None; auto.
Qed.

Lemma match_here_sound (p : pattern) (s : text) gs rest :
  match_here p s = Some (gs, rest) ->
  exists m, s = m ++ rest /\ matched p m gs.
Proof.
  revert s gs; induction p as [|[l|cls|cls] p IH]; intros s gs H; simpl in H.
  - inversion H; subst; exists []; split; [reflexivity | constructor].
  - destruct (lit l s) as [s'|] eqn:E; [|discriminate].
    apply lit_Some in E; subst s.
    destruct (IH _ _ H) as (m & -> & Hm).
    exists (l ++ m); rewrite app_assoc; split; [reflexivity | now constructor].
  - destruct s as [|c s]; [discriminate|].
    destruct (cls c) eqn:Ec; [|discriminate].
    apply plus_inv in H; destruct H as (more & r & -> & Hmore & Hk).
    destruct (IH _ _ Hk) as (m & -> & Hm).
    exists ((c :: more) ++ m); split; [now rewrite <- app_assoc|].
    constructor; auto; discriminate.
  - destruct s as [|c s]; [discriminate|].
    destruct (cls c) eqn:Ec; [|discriminate].
    apply plus_inv in H; destruct H as (more & r & -> & Hmore & Hk).
    destruct (match_here p r) as [[gs' rest']|] eqn:E; [|discriminate].
    simpl in Hk; inversion Hk; subst gs rest'.
    destruct (IH _ _ E) as (m & -> & Hm).
    exists ((c :: more) ++ m); split; [now rewrite <- app_assoc|].
    constructor; auto; discriminate.
Qed.

Lemma matched_needs p m gs c : matched p m gs -> needs p c -> In c m.
Proof.
  intros Hm; induction Hm; intros (l' & Hin & Hc); simpl in Hin.
  - contradiction.
  - apply in_or_app; destruct Hin as [E|Hin].
    + inversion E; subst; auto.
    + right; apply IHHm; exists l'; auto.
  - apply in_or_app; destruct Hin as [E|Hin]; [discriminate|].
    right; apply IHHm; exists l'; auto.
  - apply in_or_app; destruct Hin as [E|Hin]; [discriminate|].
    right; apply IHHm; exists l'; auto.
Qed.

Lemma matched_groups p m gs g c :
  matched p m gs -> In g gs -> In c g -> In c m.
Proof.
  intros Hm; induction Hm; intros Hg Hc.
  - contradiction.
  - apply in_or_app; auto.
  - apply in_or_app; auto.
  - apply in_or_app; destruct Hg as [->|Hg]; auto.
Qed.

(** A pattern that opens with a literal character matches that character
    first. *)
Lemma matched_head a l p m gs :
  matched (Lit (a :: l) :: p) m gs -> exists m', m = a :: m'.
Proof. intros H; inversion H; subst; simpl; eauto. Qed.

(** A pattern that opens with [a] finds nothing to start from in a text
    without [a]. *)
Lemma miss_head a l p c (s : text) :
  c <> a -> match_here (Lit (a :: l) :: p) (c :: s) = None.
Proof.
  intros H; cbn [match_here lit].
  destruct (Ascii.eqb a c) eqn:E; auto.
  apply Ascii.eqb_eq in E; congruence.
Qed.

(** ** Matching a text of known shape *)

Lemma match_lit l p (s : text) :
  match_here (Lit l :: p) (l ++ s) = match_here p s.
Proof. cbn [match_here]; now rewrite lit_refl. Qed.

Lemma match_plus cls p (run rest : text) r :
  run <> [] -> all cls run -> stops cls rest ->
  match_here p rest = Some r ->
  match_here (Plus cls :: p) (run ++ rest) = Some r.
Proof.
  intros Hne Hrun Hstop Hp.
  destruct run as [|c run]; [congruence|].
  inversion Hrun as [|? ? Hc Hrun']; subst.
  rewrite <- app_comm_cons; cbn [match_here]; rewrite Hc.
  apply plus_run; auto.
Qed.

Lemma match_group cls p (run rest : text) gs rest' :
  run <> [] -> all cls run -> stops cls rest ->
  match_here p rest = Some (gs, rest') ->
  match_here (Group cls :: p) (run ++ rest) = Some (run :: gs, rest').
Proof.
  intros Hne Hrun Hstop Hp.
  destruct run as [|c run]; [congruence|].
  inversion Hrun as [|? ? Hc Hrun']; subst.
  rewrite <- app_comm_cons; cbn [match_here]; rewrite Hc.
  apply plus_run; auto.
  cbn [List.app]; now rewrite Hp.
Qed.

(** ** The classes *)

(** The classes, character by character. *)
Ltac each_char c :=
  destruct c as [[|] [|] [|] [|] [|] [|] [|] [|]]; vm_compute;
  try reflexivity; try discriminate; try tauto.



(** The digits of a number are digits. *)
Lemma uint_digits (u : Decimal.uint) :
  all is_digit (py (NilEmpty.string_of_uint u)).
Proof. induction u; simpl; constructor; auto. Qed.

Lemma dec_digits (n : N) : all is_digit (dec n).
Proof. apply uint_digits. Qed.

Lemma paren_not_digit : is_digit "("%char = false.
Proof. reflexivity. Qed.

Lemma paren_not_word : is_word "("%char = false.
Proof. reflexivity. Qed.

Lemma semi_not_digit : is_digit ";"%char = false.
Proof. reflexivity. Qed.

Lemma semi_not_word : is_word ";"%char = false.
Proof. reflexivity. Qed.

Lemma hash_not_digit : is_digit "#"%char = false.
Proof. reflexivity. Qed.

Lemma hash_not_word : is_word "#"%char = false.
Proof. reflexivity. Qed.

#[local] Hint Resolve dec_digits paren_not_digit paren_not_word
  semi_not_digit semi_not_word hash_not_digit hash_not_word : core.

Lemma all_not_in cls (s : text) c : all cls s -> cls c = false -> ~ In c s.
Proof.
  intros H Hc Hin; unfold all in H; rewrite Forall_forall in H.
  apply H in Hin; congruence.
Qed.

Lemma all_weaken (cls cls' : ascii -> bool) (s : text) :
  (forall c, cls c = true -> cls' c = true) -> all cls s -> all cls' s.
Proof. intros H; apply Forall_impl; auto. Qed.

Ltac not_in :=
  let H := fresh in
  intros H; cbn [py list_ascii_of_string nl] in H;
  repeat match type of H with
         | In _ (_ ++ _) => apply in_app_or in H; destruct H as [H|H]
         | In _ (_ :: _) => destruct H as [H|H]; [discriminate H|]
         | In _ [] => destruct H
         end;
  first [ contradiction | now (eapply all_not_in in H; eauto) ].

Lemma inert_parts (s : text) :
  all inert s ->
  ~ In "#"%char s /\ all not_gt s /\ ~ In ";"%char s /\ ~ In "("%char s.
Proof.
  intros H; repeat split; try (eapply all_not_in; eauto).
  eapply all_weaken; [|exact H].
  intros c; each_char c.
Qed.

(** ** The scan *)

Lemma scan_skip p (m rest : text) :
  scan p (List.length m) (m ++ rest) = scan p 0 rest.
Proof. induction m as [|a m IH]; simpl; auto. Qed.

Lemma scan_hit p (s : text) gs rest :
  opens p -> match_here p s = Some (gs, rest) ->
  scan p 0 s = Hit gs :: scan p 0 rest.
Proof.
  intros Hp H.
  destruct (match_here_sound _ _ _ _ H) as (m & Hs & Hm).
  destruct p as [|[[|a l]| |] p]; try contradiction.
  destruct (matched_head _ _ _ _ _ Hm) as (m' & ->).
  subst s; rewrite <- app_comm_cons in *.
  cbn [scan]; rewrite H.
  replace (List.length (m' ++ rest) - List.length rest)%nat
    with (List.length m') by (rewrite length_app; lia).
  now rewrite scan_skip.
Qed.

Lemma scan_miss p c (s : text) :
  match_here p (c :: s) = None -> scan p 0 (c :: s) = Chr c :: scan p 0 s.
Proof. intros H; cbn [scan]; now rewrite H. Qed.

Lemma occurs_cons p c (s : text) :
  occurs p (c :: s) = false ->
  match_here p (c :: s) = None /\ occurs p s = false.
Proof. cbn [occurs]; destruct (match_here p (c :: s)); auto; discriminate. Qed.

Lemma occurs_step p c (s : text) :
  match_here p (c :: s) = None -> occurs p s = false ->
  occurs p (c :: s) = false.
Proof. intros H1 H2; cbn [occurs]; now rewrite H1. Qed.

Lemma scan_clean p (s : text) : occurs p s = false -> scan p 0 s = map Chr s.
Proof.
  induction s as [|c s IH]; intros H; [reflexivity|].
  apply occurs_cons in H; destruct H as [H1 H2].
  rewrite scan_miss, IH; auto.
Qed.

(** A pattern does not occur in a text that lacks one of its literal
    characters. *)
Lemma absent_clean p c (s : text) : needs p c -> ~ In c s -> occurs p s = false.
Proof.
  intros Hn; induction s as [|a s IH]; intros Hc.
  - cbn [occurs]; destruct (match_here p []) as [[gs rest]|] eqn:E; auto.
    destruct (match_here_sound _ _ _ _ E) as (m & Hs & Hm).
    exfalso; apply Hc; rewrite Hs; apply in_or_app; left.
    eapply matched_needs; eauto.
  - cbn [occurs]; destruct (match_here p (a :: s)) as [[gs rest]|] eqn:E.
    + destruct (match_here_sound _ _ _ _ E) as (m & Hs & Hm).
      exfalso; apply Hc; rewrite Hs; apply in_or_app; left.
      eapply matched_needs; eauto.
    + apply IH; intros H; apply Hc; now right.
Qed.

(** Where a shorter pattern does not occur, a longer one does not. *)
Lemma occurs_prefix (p q : pattern) (s : text) :
  occurs p s = false -> occurs (p ++ q) s = false.
Proof.
  induction s as [|c s IH]; cbn [occurs]; intros H.
  - destruct (match_here p []) eqn:E; [discriminate|].
    destruct (match_here (p ++ q) []) eqn:E'; auto.
    exfalso; apply (match_here_prefix p q []); congruence.
  - destruct (match_here p (c :: s)) eqn:E; [discriminate|].
    destruct (match_here (p ++ q) (c :: s)) eqn:E'; auto.
    exfalso; apply (match_here_prefix p q (c :: s)); congruence.
Qed.

(** A pattern that opens with a character outside the class does not
    start in a run of the class. *)
Lemma occurs_skip p a l (cls : ascii -> bool) (run rest : text) :
  all cls run -> cls a = false ->
  occurs (Lit (a :: l) :: p) rest = false ->
  occurs (Lit (a :: l) :: p) (run ++ rest) = false.
Proof.
  intros Hrun Ha Hrest; induction Hrun as [|c run Hc _ IH]; [exact Hrest|].
  rewrite <- app_comm_cons; apply occurs_step; [|exact IH].
  cbn [match_here lit].
  destruct (Ascii.eqb a c) eqn:E; [|reflexivity].
  apply Ascii.eqb_eq in E; congruence.
Qed.

Lemma scan_from p (k : nat) (s : text) : Forall (seg_from s) (scan p k s).
Proof.
  revert k; induction s as [|c s IH]; intros k; simpl; [constructor|].
  assert (Hw : forall k, Forall (seg_from (c :: s)) (scan p k s)).
  { intros k'; eapply Forall_impl; [|apply IH].
    intros [a|gs]; simpl; intros; auto; right; eauto. }
  destruct k as [|k]; auto.
  destruct (match_here p (c :: s)) as [[gs rest]|] eqn:E.
  - constructor; auto.
    destruct (match_here_sound _ _ _ _ E) as (m & Hs & Hm).
    intros x a Hx Ha; rewrite Hs; apply in_or_app; left.
    eapply matched_groups; eauto.
  - constructor; auto; simpl; auto.
Qed.

(** Walk over the characters at which the pattern visibly fails. *)
Ltac walk :=
  rewrite <- ?app_assoc; cbn [py list_ascii_of_string List.app];
  repeat (apply occurs_step; [reflexivity|]).

Ltac skip_digits :=
  apply (occurs_skip _ _ _ is_digit); [apply dec_digits | reflexivity |].

Ltac stroll := walk; repeat (skip_digits; walk); try reflexivity.

(** ** The substitution *)

Lemma splice_chars {St} (f : list text -> M St text) (s : text) (st : St) :
  splice f (map Chr s) st = (st, Ok s).
Proof.
  induction s as [|c s IH]; simpl; auto.
  unfold bind; now rewrite IH.
Qed.

Lemma re_sub_clean {St} p (f : list text -> M St text) (s : text) (st : St) :
  occurs p s = false -> re_sub p f s st = (st, Ok s).
Proof. intros H; unfold re_sub; rewrite scan_clean; auto using splice_chars. Qed.

Lemma re_sub_hit {St} p (f : list text -> M St text) (s : text) gs rest :
  opens p -> match_here p s = Some (gs, rest) ->
  re_sub p f s = (new <- f gs ;; out <- re_sub p f rest ;; ret (new ++ out)).
Proof. intros Hp H; unfold re_sub; now rewrite (scan_hit _ _ _ _ Hp H). Qed.

Lemma re_sub_miss {St} p (f : list text -> M St text) c (s : text) :
  match_here p (c :: s) = None ->
  re_sub p f (c :: s) = (out <- re_sub p f s ;; ret (c :: out)).
Proof. intros H; unfold re_sub; now rewrite scan_miss. Qed.

Lemma re_sub_nil {St} p (f : list text -> M St text) : re_sub p f [] = ret [].
Proof. reflexivity. Qed.

Lemma re_sub_skip {St} p (f : list text -> M St text) (pre rest : text) st :
  misses p pre rest = true ->
  re_sub p f (pre ++ rest) st
  = (out <- re_sub p f rest ;; ret (pre ++ out)) st.
Proof.
  induction pre as [|c pre IH]; cbn [misses]; intros H.
  - unfold bind; cbn [List.app];
      destruct (re_sub p f rest st) as [st1 [o|e|]]; reflexivity.
  - destruct (match_here p ((c :: pre) ++ rest)) eqn:E; [discriminate|].
    rewrite <- app_comm_cons in *; rewrite (re_sub_miss _ _ _ _ E).
    unfold bind in *; rewrite (IH H).
    destruct (re_sub p f rest st) as [st1 [o|e|]]; reflexivity.
Qed.

Lemma re_sub_const {St} p (new s : text) (st : St) :
  re_sub p (fun _ => ret new) s st = (st, Ok (replace_segs new (scan p 0 s))).
Proof.
  unfold re_sub; induction (scan p 0 s) as [|[c|gs] segs IH]; simpl; auto;
    unfold bind, ret in *; now rewrite IH.
Qed.

Lemma erase_hit p (s : text) gs rest :
  opens p -> match_here p s = Some (gs, rest) -> erase p s = erase p rest.
Proof. intros Hp H; unfold erase; now rewrite (scan_hit _ _ _ _ Hp H). Qed.

Lemma erase_miss p c (s : text) :
  match_here p (c :: s) = None -> erase p (c :: s) = c :: erase p s.
Proof. intros H; unfold erase; now rewrite (scan_miss _ _ _ H). Qed.

Lemma erase_pass a l p (x rest : text) :
  ~ In a x ->
  erase (Lit (a :: l) :: p) (x ++ rest) = x ++ erase (Lit (a :: l) :: p) rest.
Proof.
  induction x as [|c x IH]; intros H; [reflexivity|].
  rewrite <- app_comm_cons, erase_miss, IH; auto.
  - intros Hin; apply H; now right.
  - apply miss_head; intros ->; apply H; now left.
Qed.

(** ** Computations *)

Lemma blames_ret {St A} (a : A) (P : Prop) : blames (@ret St A a) P.
Proof. intros st H; discriminate. Qed.

Lemma blames_bind {St A B} (m : M St A) (f : A -> M St B) (P : Prop) :
  blames m P -> (forall a, blames (f a) P) -> blames (bind m f) P.
Proof.
  intros Hm Hf st; unfold bind.
  specialize (Hm st); destruct (m st) as [st1 [a|e|]]; simpl in *; auto;
    [apply Hf|discriminate].
Qed.

Lemma blames_splice {St} (f : list text -> M St text) segs (P : Prop) :
  (forall gs, blames (f gs) P) -> blames (splice f segs) P.
Proof.
  intros Hf; induction segs as [|[c|gs] segs IH]; simpl.
  - apply blames_ret.
  - apply blames_bind; auto; intros; apply blames_ret.
  - apply blames_bind; auto; intros; apply blames_bind; auto.
    intros; apply blames_ret.
Qed.

Lemma blames_re_sub {St} p (f : list text -> M St text) s (P : Prop) :
  (forall gs, blames (f gs) P) -> blames (re_sub p f s) P.
Proof. apply blames_splice. Qed.





Lemma gives_ret {St A} (I : St -> Prop) (a : A) (Q : A -> Prop) :
  Q a -> gives I (ret a) Q.
Proof. intros H st Hst; exists st, a; auto. Qed.

Lemma gives_bind {St A B} (I : St -> Prop) (m : M St A) (f : A -> M St B)
    (Q : A -> Prop) (R : B -> Prop) :
  gives I m Q -> (forall a, Q a -> gives I (f a) R) -> gives I (bind m f) R.
Proof.
  intros Hm Hf st Hst; unfold bind.
  destruct (Hm st Hst) as (st1 & a & -> & H1 & Ha); now apply Hf.
Qed.

(** ** The patterns of the script *)

Lemma opens_version : opens version_re.
Proof. exact I. Qed.

Lemma opens_import : opens import_re.
Proof. exact I. Qed.

Lemma opens_layout : opens layout_re.
Proof. exact I. Qed.

Lemma needs_hash_version : needs version_re "#".
Proof. exists (py "#version"); simpl; auto. Qed.

Lemma needs_semi_precision : needs precision_re ";".
Proof. exists (py ";"); simpl; auto 10. Qed.

Lemma needs_paren_layout : needs layout_re "(".
Proof. exists (py "layout(std140)"); simpl; auto 10. Qed.

Lemma needs_semi_sampler : needs sampler_re ";".
Proof. exists (py ";"); simpl; auto 10. Qed.


Lemma match_import (name : text) :
  all not_gt name ->
  match_here import_re (py "#moj_import <minecraft:" ++ name ++ py ">")
  = Some ([py "minecraft:" ++ name], []).
Proof.
  intros Hn.
  change (py "#moj_import <minecraft:" ++ name ++ py ">")
    with (py "#moj_import" ++ py " " ++ py "<" ++ (py "minecraft:" ++ name)
          ++ py ">" ++ []).
  unfold import_re; rewrite match_lit.
  apply match_plus; [discriminate | repeat constructor | reflexivity |].
  rewrite match_lit.
  apply match_group; [discriminate | | reflexivity |].
  - apply Forall_app; split; [repeat constructor | exact Hn].
  - now rewrite match_lit.
Qed.

(** The shape of a match of the import pattern. *)
Lemma matched_import m gs :
  matched import_re m gs ->
  exists ws path,
    m = py "#moj_import" ++ ws ++ py "<" ++ path ++ py ">" /\ gs = [path] /\
    ws <> [] /\ all is_space ws /\ path <> [] /\ all not_gt path.
Proof.
  intros H; unfold import_re in H.
  inversion H as [|l1 p1 m1 gs1 H1| |]; subst; clear H.
  inversion H1 as [| |cls2 p2 ws m2 gs2 Hws1 Hws2 H2|]; subst; clear H1.
  inversion H2 as [|l3 p3 m3 gs3 H3| |]; subst; clear H2.
  inversion H3 as [| | |cls4 p4 path m4 gs4 Hp1 Hp2 H4]; subst; clear H3.
  inversion H4 as [|l5 p5 m5 gs5 H5| |]; subst; clear H4.
  inversion H5; subst.
  exists ws, path; repeat split; auto.
Qed.

Lemma match_import_shape (ws path rest : text) :
  ws <> [] -> all is_space ws -> path <> [] -> all not_gt path ->
  match_here import_re (py "#moj_import" ++ ws ++ py "<" ++ path ++ py ">" ++ rest)
  = Some ([path], rest).
Proof.
  intros Hw Hws Hp Hps; unfold import_re.
  rewrite match_lit.
  apply match_plus; auto; try reflexivity.
  rewrite match_lit.
  apply match_group; auto; reflexivity.
Qed.

(** A declaration that already has its index is no match for the layout
    pattern. *)
Lemma bound_not_matched (n : N) (name : text) :
  all is_word name -> occurs layout_re (bound n name) = false.
Proof.
  intros Hn; unfold bound; walk.
  eapply absent_clean; [apply needs_paren_layout|not_in].
Qed.

(** ** The passes *)

Lemma preprocess_S depth fs source :
  preprocess (S depth) fs source =
  (source <- re_sub version_re (fun _ => ret []) source ;;
   source <- preprocess_moj_imports fs (preprocess depth fs) source ;;
   source <- re_sub precision_re (fun _ => ret []) source ;;
   source <- re_sub layout_re add_binding source ;;
   re_sub sampler_re (fun g => ret (sampler_note g)) source).
Proof. reflexivity. Qed.

Lemma later_passes_clean depth fs (source : text) self :
  occurs import_re source = false ->
  occurs precision_re source = false ->
  occurs layout_re source = false ->
  occurs sampler_re source = false ->
  later_passes depth fs source self = (cleared self, Ok source).
Proof.
  intros Hi Hp Hl Hs; unfold later_passes, preprocess_moj_imports, bind.
  cbn [reset_included]; fold (cleared self).
  now rewrite (re_sub_clean _ _ _ _ Hi), (re_sub_clean _ _ _ _ Hp),
    (re_sub_clean _ _ _ _ Hl), (re_sub_clean _ _ _ _ Hs).
Qed.

Lemma preprocess_clean depth fs (source : text) self :
  occurs version_re source = false ->
  occurs import_re source = false ->
  occurs precision_re source = false ->
  occurs layout_re source = false ->
  occurs sampler_re source = false ->
  preprocess (S depth) fs source self = (cleared self, Ok source).
Proof.
  intros Hv Hi Hp Hl Hs; rewrite preprocess_S.
  unfold bind at 1; rewrite (re_sub_clean _ _ _ _ Hv).
  now apply later_passes_clean.
Qed.

Lemma plain_clean (s : text) :
  plain s = true ->
  occurs version_re s = false /\ occurs import_re s = false /\
  occurs precision_re s = false /\ occurs layout_re s = false /\
  occurs sampler_re s = false.
Proof.
  unfold plain; rewrite !andb_true_iff, !negb_true_iff.
  intros ((((Hi & Hv) & Hp) & Hl) & Hs); repeat split.
  - apply (occurs_prefix version_token [Plus is_space; Plus is_digit]), Hv.
  - apply (occurs_prefix moj_import_token
             [Plus is_space; Lit (py "<"); Group not_gt; Lit (py ">")]), Hi.
  - apply (occurs_prefix precision_token
             [Plus is_space; Plus is_word; Plus is_space; Plus is_word;
              Lit (py ";")]), Hp.
  - apply (occurs_prefix layout_token [Plus is_space; Group is_word]), Hl.
  - apply (occurs_prefix sampler_token
             [Plus is_space; Group is_word; Lit (py ";")]), Hs.
Qed.

Lemma directive_free_clean (s : text) :
  directive_free s = true ->
  occurs version_re s = false /\ occurs import_re s = false /\
  occurs precision_re s = false /\ occurs layout_re s = false /\
  occurs sampler_re s = false.
Proof.
  unfold directive_free; rewrite !andb_true_iff, !negb_true_iff; tauto.
Qed.

Lemma no_import_in (s : text) self fs rec :
  occurs import_re s = false ->
  preprocess_moj_imports fs rec s self = (cleared self, Ok s).
Proof.
  intros H; unfold preprocess_moj_imports, bind; cbn [reset_included].
  now rewrite (re_sub_clean _ _ _ _ H).
Qed.

(** The three passes after the imports, on a text without [;] and [(]. *)
Lemma tail_passes_clean (s : text) self :
  ~ In ";"%char s -> ~ In "("%char s ->
  (source <- re_sub precision_re (fun _ => ret []) s ;;
   source <- re_sub layout_re add_binding source ;;
   re_sub sampler_re (fun g => ret (sampler_note g)) source) self
  = (self, Ok s).
Proof.
  intros Hs Hp; unfold bind.
  rewrite (re_sub_clean precision_re), (re_sub_clean layout_re),
    (re_sub_clean sampler_re); auto.
  - eapply absent_clean; eauto using needs_semi_sampler.
  - eapply absent_clean; eauto using needs_paren_layout.
  - eapply absent_clean; eauto using needs_semi_precision.
Qed.

Lemma directive_survives_version (name : text) {St} (st : St) :
  ~ In "#"%char name -> 
  re_sub version_re (fun _ => ret []) (py "#moj_import <minecraft:" ++ name ++ py ">") st
  = (st, Ok (py "#moj_import <minecraft:" ++ name ++ py ">")).
Proof.
  intros Hn.
  change (py "#moj_import <minecraft:" ++ name ++ py ">")
    with ("#"%char :: py "moj_import <minecraft:" ++ name ++ py ">").
  rewrite re_sub_miss by reflexivity.
  unfold bind; rewrite re_sub_clean; [reflexivity|].
  eapply absent_clean; [apply needs_hash_version|not_in].
Qed.

Lemma replace_import_minecraft fs rec (import_path : text) self :
  startswith (py "minecraft:") import_path = true ->
  set_mem text_eq_dec (resolve fs self import_path) (included_files self) = false ->
  replace_import fs rec [import_path] self =
  match lookup fs (resolve fs self import_path) with
  | Missing => (self, Ok (py "// Missing import: " ++ import_path ++ nl))
  | Unreadable msg =>
      (added (resolve fs self import_path) self,
       Ok (py "// Error importing " ++ import_path ++ py ": " ++ msg ++ nl))
  | Inaccessible msg => (self, Raise msg)
  | Readable content =>
      match rec content (added (resolve fs self import_path) self) with
      | (self', Ok included_source) =>
          (self', Ok (py "// Import: " ++ import_path ++ nl
                      ++ included_source ++ nl))
      | (self', Raise msg) =>
          (self', Ok (py "// Error importing " ++ import_path ++ py ": " ++ msg
                      ++ nl))
      | (self', Unfinished) => (self', Unfinished)
      end
  end.
Proof.
  intros Hs Hm; unfold replace_import, resolve in *; cbn [group1 nth].
  rewrite Hs; unfold bind at 1; cbn [get]; rewrite Hm.
  destruct (lookup fs _) as [|content|msg|msg]; try reflexivity.
  unfold bind at 1; cbn [include]; unfold try_except, bind.
  destruct (rec content _) as [self' [inc|msg|]]; reflexivity.
Qed.

(** ** Directives in their place *)

Lemma lit_app l (a b r : text) : lit l a = Some r -> lit l (a ++ b) = Some (r ++ b).
Proof. intros H; apply lit_Some in H; subst a; rewrite <- app_assoc; apply lit_refl. Qed.

(** A literal found in [a ++ b] lies in [a], or [a] is its beginning. *)
Lemma lit_app_inv l (a b r : text) :
  lit l (a ++ b) = Some r ->
  (exists r', lit l a = Some r') \/
  (exists l2, l2 <> [] /\ l = a ++ l2 /\ lit l2 b = Some r).
Proof.
  revert a; induction l as [|x l IH]; intros a H.
  - left; exists a; reflexivity.
  - destruct a as [|y a].
    + right; exists (x :: l); repeat split; auto; discriminate.
    + rewrite <- app_comm_cons in H; cbn [lit] in *.
      destruct (Ascii.eqb x y) eqn:E; [|discriminate].
      apply Ascii.eqb_eq in E; subst y.
      destruct (IH _ H) as [(r' & Hr)|(l2 & Hne & -> & Hl)].
      * left; exists r'; exact Hr.
      * right; exists l2; auto.
Qed.

Lemma replace_chars (new s : text) : replace_segs new (map Chr s) = s.
Proof. induction s as [|c s IH]; simpl; [reflexivity | now rewrite IH]. Qed.

Lemma erase_clean p (s : text) : occurs p s = false -> erase p s = s.
Proof.
  intros H; unfold erase; rewrite scan_clean by exact H.
  apply replace_chars.
Qed.

Lemma occurs_app_r p (a b : text) :
  occurs p (a ++ b) = false -> occurs p b = false.
Proof.
  induction a as [|c a IH]; auto; rewrite <- app_comm_cons.
  intros H; apply occurs_cons in H; tauto.
Qed.

Lemma preprocess_later depth fs (source : text) self :
  preprocess (S depth) fs source self
  = later_passes depth fs (erase version_re source) self.
Proof.
  change (preprocess (S depth) fs source)
    with (s <- re_sub version_re (fun _ => ret []) source ;;
          later_passes depth fs s).
  unfold bind at 1; now rewrite re_sub_const.
Qed.

(** The passes after the import pass. *)
Lemma later_passes_no_import depth fs (s : text) self :
  occurs import_re s = false ->
  later_passes depth fs s self
  = (source <- re_sub precision_re (fun _ => ret []) s ;;
     source <- re_sub layout_re add_binding source ;;
     re_sub sampler_re (fun g => ret (sampler_note g)) source) (cleared self).
Proof.
  intros H; unfold later_passes, bind at 1.
  now rewrite no_import_in by exact H.
Qed.

Lemma misses_absent a l p (x rest : text) :
  ~ In a x -> misses (Lit (a :: l) :: p) x rest = true.
Proof.
  induction x as [|c x IH]; intros H; cbn [misses]; [reflexivity|].
  rewrite <- app_comm_cons, miss_head; [apply IH|];
    intros E; apply H; simpl; auto.
Qed.

Lemma occurs_absent a l p (x rest : text) :
  ~ In a x ->
  occurs (Lit (a :: l) :: p) (x ++ rest) = occurs (Lit (a :: l) :: p) rest.
Proof.
  induction x as [|c x IH]; intros H; [reflexivity|].
  rewrite <- app_comm_cons; cbn [occurs]; rewrite miss_head; [apply IH|];
    intros E; apply H; simpl; auto.
Qed.

Lemma blanks_parts (ws : text) :
  all is_space ws ->
  ~ In "#"%char ws /\ ~ In ";"%char ws /\ ~ In "("%char ws.
Proof.
  intros H; repeat split; eapply all_not_in; eauto.
Qed.

Lemma version_absent (x rest : text) :
  ~ In "#"%char x -> occurs version_re (x ++ rest) = occurs version_re rest.
Proof. apply occurs_absent. Qed.

Lemma import_absent (x rest : text) :
  ~ In "#"%char x -> occurs import_re (x ++ rest) = occurs import_re rest.
Proof. apply occurs_absent. Qed.

(** The version pass does not stop at an import directive. *)
Lemma version_skips_import (ws path rest : text) :
  ~ In "#"%char ws -> ~ In "#"%char path ->
  occurs version_re (import_directive ws path ++ rest)
  = occurs version_re rest.
Proof.
  intros Hw Hp; unfold import_directive.
  change (py "#moj_import" ++ ws ++ py "<" ++ path ++ py ">")
    with ("#"%char :: py "moj_import" ++ ws ++ py "<" ++ path ++ py ">").
  rewrite <- app_comm_cons.
  change (occurs version_re ("#"%char :: ?t)) with (occurs version_re t).
  apply occurs_absent; not_in.
Qed.

(** The import pass at a directive: what [replace_import] returns takes
    the place of the directive. *)
Lemma import_pass_at fs rec (front ws path rest : text) st st1 new st2 out :
  ~ In "#"%char front -> blanks ws -> path <> [] -> all not_gt path ->
  replace_import fs rec [path] st = (st1, Ok new) ->
  re_sub import_re (replace_import fs rec) rest st1 = (st2, Ok out) ->
  re_sub import_re (replace_import fs rec)
    (front ++ import_directive ws path ++ rest) st
  = (st2, Ok (front ++ new ++ out)).
Proof.
  intros Hf [Hw Hws] Hp Hg E1 E2.
  rewrite re_sub_skip by (apply misses_absent; exact Hf).
  unfold bind at 1, import_directive; rewrite <- !app_assoc.
  rewrite (re_sub_hit _ _ _ _ _ opens_import
             (match_import_shape ws path rest Hw Hws Hp Hg)).
  unfold bind at 1; rewrite E1; unfold bind at 1; rewrite E2; reflexivity.
Qed.

Lemma later_passes_from depth fs (s : text) self self' out :
  re_sub import_re (replace_import fs (preprocess depth fs)) s (cleared self)
  = (self', Ok out) ->
  later_passes depth fs s self
  = (source <- re_sub precision_re (fun _ => ret []) out ;;
     source <- re_sub layout_re add_binding source ;;
     re_sub sampler_re (fun g => ret (sampler_note g)) source) self'.
Proof.
  intros E; unfold later_passes, bind at 1, preprocess_moj_imports, bind at 1.
  cbn [reset_included]; fold (cleared self); now rewrite E.
Qed.

Lemma tail_passes_free (s : text) self :
  occurs precision_re s = false -> occurs layout_re s = false ->
  occurs sampler_re s = false ->
  (source <- re_sub precision_re (fun _ => ret []) s ;;
   source <- re_sub layout_re add_binding source ;;
   re_sub sampler_re (fun g => ret (sampler_note g)) source) self
  = (self, Ok s).
Proof.
  intros Hp Hl Hs; unfold bind.
  now rewrite (re_sub_clean _ _ _ _ Hp), (re_sub_clean _ _ _ _ Hl),
    (re_sub_clean _ _ _ _ Hs).
Qed.

Lemma replace_import_again fs rec (import_path : text) self :
  startswith (py "minecraft:") import_path = true ->
  set_mem text_eq_dec (resolve fs self import_path) (included_files self) = true ->
  replace_import fs rec [import_path] self
  = (self, Ok (py "// Already included: " ++ import_path ++ nl)).
Proof.
  intros Hs Hm; unfold replace_import; cbn [group1 nth]; rewrite Hs.
  unfold bind at 1; cbn [get]; fold (resolve fs self import_path).
  now rewrite Hm.
Qed.

Lemma word_not_space c : is_word c = true -> is_space c = false.
Proof. each_char c. Qed.

Lemma space_not_word c : is_space c = true -> is_word c = false.
Proof. each_char c. Qed.

Lemma stops_run (cls cls' : ascii -> bool) (run rest : text) :
  run <> [] -> all cls run -> (forall c, cls c = true -> cls' c = false) ->
  stops cls' (run ++ rest).
Proof.
  intros Hne Hall H; destruct run as [|c run]; [contradiction|].
  inversion Hall; subst; simpl; auto.
Qed.

Lemma word_parts (name : text) :
  all is_word name ->
  ~ In "#"%char name /\ ~ In ";"%char name /\ ~ In "("%char name.
Proof. intros H; repeat split; eapply all_not_in; eauto. Qed.

(** A literal that begins in [front] lies in it when no part of it can
    end at the head of [tail]. *)
Lemma misses_split a l p (front other tail : text) :
  (forall l1 l2, a :: l = l1 ++ l2 -> l1 <> [] -> l2 <> [] ->
                 lit l2 tail = None) ->
  occurs [Lit (a :: l)] (front ++ other) = false ->
  misses (Lit (a :: l) :: p) front tail = true.
Proof.
  intros Hs; induction front as [|x front IH]; intros Ho; [reflexivity|].
  rewrite <- app_comm_cons in Ho; apply occurs_cons in Ho.
  destruct Ho as [Hx Ho]; cbn [misses].
  assert (E : match_here (Lit (a :: l) :: p) ((x :: front) ++ tail) = None).
  { cbn [match_here].
    destruct (lit (a :: l) ((x :: front) ++ tail)) as [r|] eqn:E;
      [exfalso|reflexivity].
    apply lit_app_inv in E; destruct E as [(r' & Hr)|(l2 & Hne & Hl & Hl2)].
    - cbn [match_here] in Hx.
      rewrite (app_comm_cons front other x), (lit_app _ _ other _ Hr) in Hx.
      discriminate.
    - rewrite (Hs (x :: front) l2 Hl) in Hl2; [discriminate| |exact Hne].
      discriminate. }
  rewrite E; exact (IH Ho).
Qed.

Lemma misses_foreign a l p b (front other tail : text) :
  ~ In b l -> occurs [Lit (a :: l)] (front ++ other) = false ->
  misses (Lit (a :: l) :: p) front (b :: tail) = true.
Proof.
  intros Hb; apply misses_split; intros l1 l2 H H1 H2.
  destruct l2 as [|y l2]; [contradiction|]; cbn [lit].
  destruct (Ascii.eqb y b) eqn:E; [exfalso|reflexivity].
  apply Ascii.eqb_eq in E; subst y.
  destruct l1 as [|z l1]; [contradiction|].
  rewrite <- app_comm_cons in H; inversion H; subst.
  apply Hb, in_or_app; right; now left.
Qed.

Lemma occurs_misses p (a b : text) :
  misses p a b = true -> occurs p (a ++ b) = occurs p b.
Proof.
  induction a as [|c a IH]; [reflexivity|]; cbn [misses].
  destruct (match_here p ((c :: a) ++ b)) eqn:E; [discriminate|].
  intros H; rewrite <- app_comm_cons in *; cbn [occurs]; rewrite E; auto.
Qed.

Lemma erase_misses p (a b : text) :
  misses p a b = true -> erase p (a ++ b) = a ++ erase p b.
Proof.
  induction a as [|c a IH]; [reflexivity|]; cbn [misses].
  destruct (match_here p ((c :: a) ++ b)) eqn:E; [discriminate|].
  intros H; rewrite <- app_comm_cons in *; rewrite erase_miss, IH; auto.
Qed.

(** A literal whose first character does not come back in it, in front of
    a text that begins with this character: no match starts in a text in
    front that lacks a character of the literal. *)
Lemma misses_front a l p c (front tail : text) :
  ~ In a l -> In c (a :: l) -> ~ In c front ->
  misses (Lit (a :: l) :: p) front (a :: tail) = true.
Proof.
  intros Ha Hc; induction front as [|x front IH]; intros Hf; [reflexivity|].
  cbn [misses].
  assert (E : match_here (Lit (a :: l) :: p) ((x :: front) ++ a :: tail) = None).
  { cbn [match_here].
    destruct (lit (a :: l) ((x :: front) ++ a :: tail)) as [r|] eqn:E;
      [exfalso|reflexivity].
    apply lit_app_inv in E; destruct E as [(r' & Hr)|(l2 & Hne & Hl & Hl2)].
    - apply lit_Some in Hr; apply Hf; rewrite Hr.
      apply in_or_app; now left.
    - destruct l2 as [|y l2]; [congruence|].
      cbn [lit] in Hl2; destruct (Ascii.eqb y a) eqn:Ey; [|discriminate].
      apply Ascii.eqb_eq in Ey; subst y.
      rewrite <- app_comm_cons in Hl; inversion Hl as [[Hx Hl']].
      apply Ha; rewrite Hl'; apply in_or_app; right; now left. }
  rewrite E; apply IH; intros H; apply Hf; now right.
Qed.

Lemma from_S n k : from n (S k) = n :: from (n + 1) k.
Proof.
  unfold from; cbn [seq map]; rewrite N.add_0_r; f_equal.
  rewrite <- seq_shift, map_map; apply map_ext; intros i; lia.
Qed.

Lemma moved_0 self : moved 0 self = self.
Proof.
  destruct self; unfold moved; cbn.
  rewrite N.add_0_r, app_nil_r; reflexivity.
Qed.

Lemma moved_S k gs self :
  moved k (fst (add_binding gs self)) = moved (S k) self.
Proof.
  unfold moved; cbn [add_binding fst include_dir included_files
                       binding_counter issued].
  rewrite from_S, <- app_assoc; f_equal; lia.
Qed.

(** [add_binding] is called once for each match, and each call moves the
    counter by one. *)
Lemma splice_add_binding segs self :
  exists out,
    splice add_binding segs self
    = (moved (List.length
                (filter (fun g => match g with Hit _ => true | Chr _ => false end)
                        segs)) self,
       Ok out).
Proof.
  revert self; induction segs as [|[c|gs] segs IH]; intros self;
    cbn [splice filter List.length].
  - exists []; now rewrite moved_0.
  - destruct (IH self) as [out E]; exists (c :: out).
    unfold bind; now rewrite E.
  - destruct (IH (fst (add_binding gs self))) as [out E].
    eexists; unfold bind at 1.
    change (add_binding gs self)
      with (fst (add_binding gs self),
            Ok (bound (binding_counter self) (group1 gs))).
    unfold bind; rewrite E, moved_S; reflexivity.
Qed.

(** A pass that calls no method of the instance leaves it as it is. *)
Lemma re_sub_pure {St} p (h : list text -> text) (s : text) (st : St) :
  exists out, re_sub p (fun g => ret (h g)) s st = (st, Ok out).
Proof.
  unfold re_sub; induction (scan p 0 s) as [|[c|gs] segs [out IH]];
    cbn [splice].
  - exists []; reflexivity.
  - exists (c :: out); unfold bind; now rewrite IH.
  - exists (h gs ++ out); unfold bind at 1; cbn [ret]; unfold bind.
    now rewrite IH.
Qed.

(** ** C1 *)

Lemma import_only_source fs depth (name : text) self content :
  all inert name ->
  lookup fs (resolve fs self (py "minecraft:" ++ name)) = Readable content ->
  output (preprocess depth fs content
            (added (resolve fs self (py "minecraft:" ++ name)) (cleared self)))
  = Unfinished ->
  output (preprocess (S depth) fs (py "#moj_import <minecraft:" ++ name ++ py ">")
            self) = Unfinished.
Proof.
  intros Hn Hf Hrec; destruct (inert_parts _ Hn) as (Hh & Hg & Hs & Hp).
  rewrite preprocess_S; unfold bind at 1.
  rewrite directive_survives_version by exact Hh.
  unfold bind at 1; unfold preprocess_moj_imports, bind at 1.
  cbn [reset_included].
  rewrite (re_sub_hit _ _ _ _ _ opens_import (match_import _ Hg)).
  unfold bind at 1.
  rewrite replace_import_minecraft by reflexivity.
  change (resolve fs _ ?x) with (resolve fs self x); rewrite Hf.
  unfold output in Hrec.
  destruct (preprocess depth fs content _) as [self' [o|e|]];
    [discriminate|discriminate|reflexivity].
Qed.

Lemma import_in_cycle rec files counter log :
  preprocess_moj_imports cycle rec b_imports_a (instance files counter log)
  = match rec a_imports_b (instance [py "include/a.glsl"] counter log) with
    | (self', Ok included_source) =>
        (self', Ok (py "// Import: minecraft:a.glsl" ++ nl
                    ++ included_source ++ nl))
    | (self', Raise msg) =>
        (self', Ok (py "// Error importing minecraft:a.glsl: " ++ msg ++ nl))
    | (self', Unfinished) => (self', Unfinished)
    end.
Proof.
  unfold preprocess_moj_imports, bind at 1; cbn [reset_included].
  change b_imports_a with (py "#moj_import <minecraft:" ++ py "a.glsl" ++ py ">").
  rewrite (re_sub_hit _ _ _ _ _ opens_import
             (match_import (py "a.glsl") ltac:(repeat constructor))).
  unfold bind at 1.
  rewrite replace_import_minecraft by reflexivity.
  change (lookup cycle _) with (Readable a_imports_b); cbv iota.
  change (added _ _) with (instance [py "include/a.glsl"] counter log).
  destruct (rec a_imports_b _) as [self' [inc|msg|]]; [| |reflexivity];
    rewrite re_sub_nil; cbn [bind ret]; rewrite app_nil_r;
    now rewrite <- !app_assoc.
Qed.

Lemma cycle_goes_on depth files counter log :
  output (preprocess depth cycle a_imports_b (instance files counter log))
  = Unfinished /\
  output (preprocess depth cycle b_imports_a (instance files counter log))
  = Unfinished.
Proof.
  revert files counter log; induction depth as [|depth IH];
    intros files counter log; [split; reflexivity|].
  split.
  - apply (import_only_source cycle depth (py "b.glsl") _ b_imports_a);
      [repeat constructor | reflexivity | apply IH].
  - apply (import_only_source cycle depth (py "a.glsl") _ a_imports_b);
      [repeat constructor | reflexivity | apply IH].
Qed.

(** C1 fails on the code. With two files that import each other: whatever
    the include set holds when the text of [b.glsl] is searched for
    imports, the path of [a.glsl] too, the import of [a.glsl] in it is
    expanded by a nested call on the source of [a.glsl], and is not
    answered with the comment for an included file; and [preprocess] on
    the source of [a.glsl] does not return at any depth. *)
Theorem import_cycle_expands_again :
  (forall rec files counter log,
     preprocess_moj_imports cycle rec b_imports_a (instance files counter log)
     = match rec a_imports_b (instance [py "include/a.glsl"] counter log) with
       | (self', Ok included_source) =>
           (self', Ok (py "// Import: minecraft:a.glsl" ++ nl
                       ++ included_source ++ nl))
       | (self', Raise msg) =>
           (self', Ok (py "// Error importing minecraft:a.glsl: " ++ msg ++ nl))
       | (self', Unfinished) => (self', Unfinished)
       end) /\
  (forall depth files counter log,
     output (preprocess depth cycle a_imports_b (instance files counter log))
     = Unfinished).
Proof.
  split.
  - exact import_in_cycle.
  - intros; apply cycle_goes_on.
Qed.

(** ** C2 *)

(** C2 fails on the code. In the diamond the content of [d.glsl] is in the
    output twice, once under [b.glsl] and once under [c.glsl], and no
    import is answered with the comment for an included file. *)
Theorem diamond_expands_twice :
  output (preprocess 3 diamond diamond_source (new_preprocessor (py "include")))
  = Ok diamond_output /\
  count d_content diamond_output = 2%nat /\
  contains (py "// Already included") diamond_output = false.
Proof. split; [|split]; vm_compute; reflexivity. Qed.

(** ** C3 *)

Lemma imports_forget fs rec (source : text) self :
  preprocess_moj_imports fs rec source self
  = preprocess_moj_imports fs rec source (cleared self).
Proof. reflexivity. Qed.

Lemma preprocess_forgets depth fs (source : text) self :
  preprocess (S depth) fs source self
  = preprocess (S depth) fs source (cleared self).
Proof.
  change (preprocess (S depth) fs source)
    with (s1 <- re_sub version_re (fun _ => ret []) source ;;
          later_passes depth fs s1).
  unfold bind at 1 2; rewrite !re_sub_const.
  unfold later_passes, bind at 1 5.
  now rewrite imports_forget.
Qed.

(** C3 fails on the code. The include set is emptied by every call of
    [preprocess], the nested ones too, so that a call does the same
    whatever the set held when it began; after the one import of a source
    has been expanded the set is empty, and a second import of the same
    path in the same source is expanded once more. *)
Theorem include_set_reset_by_nested_call :
  (forall depth fs source self,
     preprocess (S depth) fs source self
     = preprocess (S depth) fs source (cleared self)) /\
  preprocess 2 single (py "#moj_import <minecraft:d.glsl>")
    (new_preprocessor (py "include"))
  = (instance (empty_set text) 0 [],
     Ok (py "// Import: minecraft:d.glsl
float fog_start;
")) /\
  preprocess 2 single twice_source (new_preprocessor (py "include"))
  = (instance (empty_set text) 0 [], Ok twice_output).
Proof.
  split; [exact preprocess_forgets|].
  split; vm_compute; reflexivity.
Qed.

(** ** C4 *)

Lemma inner_bar depth fs self :
  preprocess (S depth) fs bar_content self
  = (fst (add_binding [py "Bar"] (cleared self)),
     Ok (bound (binding_counter self) (py "Bar") ++ py " { vec4 b; };")).
Proof.
  rewrite preprocess_S.
  unfold bind at 1; rewrite re_sub_clean by reflexivity.
  unfold bind at 1; rewrite no_import_in by reflexivity.
  unfold bind at 1; rewrite re_sub_clean by reflexivity.
  unfold bind at 1.
  rewrite (re_sub_hit layout_re add_binding bar_content [py "Bar"]
             (py " { vec4 b; };") opens_layout eq_refl).
  unfold bind at 1; cbn [add_binding].
  unfold bind at 1; rewrite re_sub_clean by reflexivity.
  cbn [ret].
  rewrite re_sub_clean; [reflexivity|].
  unfold bound. cbn [group1 nth]. stroll.
Qed.

(** C4, amended. The blocks of an imported file get their indices while
    the import is expanded, before the binding pass reaches the text of
    the importing file: with the counter at [n], the imported [Bar] gets
    [n] and the [Foo] that stands before the import gets [n + 1]. *)
Theorem imported_block_bound_first depth fs self :
  lookup fs (resolve fs self (py "minecraft:bar.glsl")) = Readable bar_content ->
  preprocess (S (S depth)) fs foo_source self
  = ({| include_dir := include_dir self; included_files := empty_set text;
        binding_counter := binding_counter self + 2;
        issued := issued self
                  ++ [binding_counter self; binding_counter self + 1] |},
     Ok (foo_output (binding_counter self + 1) (binding_counter self))).
Proof.
  intros Hf; rewrite preprocess_S.
  unfold bind at 1; rewrite re_sub_clean by reflexivity.
  unfold bind at 1; unfold preprocess_moj_imports, bind at 1.
  cbn [reset_included].
  change foo_source
    with (py "layout(std140) uniform Foo { vec4 a; };
" ++ py "#moj_import <minecraft:bar.glsl>
").
  rewrite re_sub_skip by reflexivity.
  unfold bind at 1.
  rewrite (re_sub_hit import_re _ (py "#moj_import <minecraft:bar.glsl>
") [py "minecraft:bar.glsl"] nl opens_import eq_refl).
  unfold bind at 1.
  rewrite replace_import_minecraft by reflexivity.
  change (resolve fs _ ?x) with (resolve fs self x); rewrite Hf.
  rewrite inner_bar.
  unfold bind at 1; rewrite re_sub_clean by reflexivity.
  cbn [ret add_binding fst cleared added include_dir included_files
       binding_counter issued group1 nth].
  unfold bind at 1; rewrite re_sub_clean by (unfold bound; stroll).
  unfold bind at 1.
  erewrite re_sub_hit; [|exact opens_layout|reflexivity].
  unfold bind at 1.
  cbn [add_binding binding_counter issued include_dir included_files
       group1 nth].
  unfold bind at 1; rewrite re_sub_clean by (unfold bound; stroll).
  cbn [ret].
  rewrite re_sub_clean by (unfold bound; stroll).
  replace (binding_counter self + 2) with (binding_counter self + 1 + 1)
    by lia.
  replace (issued self ++ [binding_counter self; binding_counter self + 1])
    with ((issued self ++ [binding_counter self])
          ++ [binding_counter self + 1])
    by now rewrite <- app_assoc.
  unfold foo_output, bound; rewrite <- ?app_assoc; reflexivity.
Qed.

Lemma imported_block_bound_first_witness :
  lookup foo_bar (resolve foo_bar (new_preprocessor (py "include"))
                    (py "minecraft:bar.glsl")) = Readable bar_content /\
  preprocess 2 foo_bar foo_source (new_preprocessor (py "include"))
  = (instance (empty_set text) 2 [0; 1], Ok (foo_output 1 0)).
Proof.
  split; [reflexivity|].
  apply (imported_block_bound_first 0 foo_bar (new_preprocessor (py "include"))).
  reflexivity.
Defined.

(** C4 as stated fails: on a fresh instance [Foo] gets 1 and [Bar] gets 0. *)
Lemma importer_block_bound_last :
  output (preprocess 2 foo_bar foo_source (new_preprocessor (py "include")))
  = Ok (foo_output 1 0) /\
  output (preprocess 2 foo_bar foo_source (new_preprocessor (py "include")))
  <> Ok (foo_output 0 1).
Proof. split; vm_compute; [reflexivity | discriminate]. Qed.

(** ** What leaves a call *)

Lemma blames_add_binding gs P : blames (add_binding gs) P.
Proof. intros st H; discriminate. Qed.

(** An import fails to come to an end only inside the file it brings in. *)
Lemma blames_replace_import fs rec gs :
  blames (replace_import fs rec gs) (stuck_inside fs rec).
Proof.
  intros self; unfold replace_import.
  destruct (startswith _ _); [|discriminate].
  unfold bind at 1; cbn [get].
  destruct (set_mem _ _ _); [discriminate|].
  set (path := joinpath fs (include_dir self)
                 (str_replace (py "minecraft:") [] (group1 gs))).
  destruct (lookup fs path) as [|content|msg|msg] eqn:E; try discriminate.
  unfold bind at 1; cbn [include]; fold (added path self).
  intros H; exists path, content, (added path self); split; [exact E|].
  unfold try_except, bind in H; unfold output.
  destruct (rec content (added path self)) as [self' [inc|e|]];
    [discriminate|discriminate|reflexivity].
Qed.

Lemma blames_preprocess depth fs source :
  blames (preprocess (S depth) fs source) (stuck_inside fs (preprocess depth fs)).
Proof.
  rewrite preprocess_S.
  apply blames_bind; [apply blames_re_sub; intros; apply blames_ret|intros].
  apply blames_bind; [|intros].
  { unfold preprocess_moj_imports.
    apply blames_bind; [intros st; discriminate|intros].
    apply blames_re_sub; intros; apply blames_replace_import. }
  apply blames_bind; [apply blames_re_sub; intros; apply blames_ret|intros].
  apply blames_bind; [apply blames_re_sub; intros; apply blames_add_binding|intros].
  apply blames_re_sub; intros; apply blames_ret.
Qed.

Lemma excuses_ret {St A} (a : A) (P : text -> Prop) : excuses (@ret St A a) P.
Proof. intros st e H; discriminate. Qed.

Lemma excuses_bind {St A B} (m : M St A) (f : A -> M St B) (P : text -> Prop) :
  excuses m P -> (forall a, excuses (f a) P) -> excuses (bind m f) P.
Proof.
  intros Hm Hf st e; unfold bind.
  specialize (Hm st); destruct (m st) as [st1 [a|e'|]]; simpl in *.
  - apply Hf.
  - intros H; inversion H; subst; now apply Hm.
  - discriminate.
Qed.

Lemma excuses_splice {St} (f : list text -> M St text) segs (P : text -> Prop) :
  (forall gs, excuses (f gs) P) -> excuses (splice f segs) P.
Proof.
  intros Hf; induction segs as [|[c|gs] segs IH]; simpl.
  - apply excuses_ret.
  - apply excuses_bind; auto; intros; apply excuses_ret.
  - apply excuses_bind; auto; intros; apply excuses_bind; auto.
    intros; apply excuses_ret.
Qed.

Lemma excuses_re_sub {St} p (f : list text -> M St text) s (P : text -> Prop) :
  (forall gs, excuses (f gs) P) -> excuses (re_sub p f s) P.
Proof. apply excuses_splice. Qed.

(** An import raises only what [exists()] raises on its own path: what
    the reading and the nested call raise is caught. *)
Lemma excuses_replace_import fs rec gs :
  excuses (replace_import fs rec gs) (inaccessible fs).
Proof.
  intros self e; unfold replace_import.
  destruct (startswith _ _); [|discriminate].
  unfold bind at 1; cbn [get].
  destruct (set_mem _ _ _); [discriminate|].
  set (path := joinpath fs (include_dir self)
                 (str_replace (py "minecraft:") [] (group1 gs))).
  destruct (lookup fs path) as [|content|msg|msg] eqn:E; try discriminate.
  - unfold bind at 1; cbn [include]; unfold try_except, bind.
    destruct (rec content _) as [self' [inc|e'|]]; discriminate.
  - cbn [raise snd]; intros H; inversion H; subst; now exists path.
Qed.

Lemma excuses_preprocess depth fs source :
  excuses (preprocess depth fs source) (inaccessible fs).
Proof.
  destruct depth as [|depth]; [intros st e H; discriminate|].
  rewrite preprocess_S.
  apply excuses_bind; [apply excuses_re_sub; intros; apply excuses_ret|intros].
  apply excuses_bind; [|intros].
  { unfold preprocess_moj_imports.
    apply excuses_bind; [intros st e; discriminate|intros].
    apply excuses_re_sub; intros; apply excuses_replace_import. }
  apply excuses_bind; [apply excuses_re_sub; intros; apply excuses_ret|intros].
  apply excuses_bind;
    [apply excuses_re_sub; intros gs st e; discriminate|intros].
  apply excuses_re_sub; intros; apply excuses_ret.
Qed.

(** ** C5 *)

Lemma head_word_stop (x y y' : text) :
  stops is_word y -> stops is_word y' ->
  head_word (x ++ y) = head_word (x ++ y').
Proof.
  intros H H'; induction x as [|c x IH]; cbn [List.app head_word].
  - destruct y as [|a y], y' as [|b y']; cbn [head_word stops] in *;
      try rewrite H; try rewrite H'; reflexivity.
  - now rewrite IH.
Qed.

Lemma calm_app (a b y : text) : calm (a ++ b) y = calm a (b ++ y) && calm b y.
Proof.
  induction a as [|c a IH]; [reflexivity|].
  rewrite <- app_comm_cons; cbn [calm].
  now rewrite IH, <- app_assoc, andb_assoc.
Qed.

Lemma calm_stop (x y y' : text) :
  stops is_word y -> stops is_word y' -> calm x y = calm x y'.
Proof.
  intros H H'; induction x as [|c x IH]; [reflexivity|].
  cbn [calm]; now rewrite IH, (head_word_stop x y y' H H').
Qed.

Lemma calm_no_hash (x y : text) : ~ In "#"%char x -> calm x y = true.
Proof.
  induction x as [|c x IH]; intros H; [reflexivity|].
  cbn [calm]; destruct (Ascii.eqb c "#") eqn:E.
  - apply Ascii.eqb_eq in E; subst c; exfalso; apply H; now left.
  - apply IH; intros Hin; apply H; now right.
Qed.

Lemma calm_tail (a b y : text) : calm (a ++ b) y = true -> calm b y = true.
Proof. rewrite calm_app; intros H; apply andb_true_iff in H; tauto. Qed.

Lemma orderly_tail (a b : text) : orderly (a ++ b) = true -> orderly b = true.
Proof.
  induction a as [|c a IH]; auto; rewrite <- app_comm_cons; cbn [orderly].
  intros H; apply andb_true_iff in H; tauto.
Qed.

(** A literal that lies in a text lies in every text that begins with
    it. *)
Lemma contains_front (needle a r : text) :
  contains needle (a ++ r) = false -> contains needle a = false.
Proof.
  unfold contains; induction a as [|c a IH]; intros H.
  - cbn [occurs match_here]; destruct (lit needle []) as [r'|] eqn:E; auto.
    apply (lit_app _ _ r) in E; cbn [List.app] in *.
    destruct r as [|c r]; cbn [occurs match_here] in H; rewrite E in H;
      discriminate.
  - rewrite <- app_comm_cons in H; apply occurs_cons in H; destruct H as [H1 H2].
    apply occurs_step; auto.
    cbn [match_here] in *; destruct (lit needle (c :: a)) as [r'|] eqn:E; auto.
    apply (lit_app _ _ r) in E; rewrite <- app_comm_cons in E.
    rewrite E in H1; discriminate.
Qed.

(** A word that begins a quiet word is quiet. *)
Lemma quiet_front (a r : text) : quiet (a ++ r) = true -> quiet a = true.
Proof.
  unfold quiet; intros H; apply andb_true_iff in H; destruct H as [Hv Hp].
  apply negb_true_iff in Hp; rewrite (contains_front _ _ _ Hp), andb_true_r.
  destruct a as [|c a]; [reflexivity|exact Hv].
Qed.

(** After a [#] with a quiet word the text does not go on as [version]. *)
Lemma calm_no_version (s : text) :
  calm s [] = true -> contains (py "#version") s = false.
Proof.
  unfold contains; induction s as [|c s IH]; intros H; [reflexivity|].
  cbn [calm] in H; apply andb_true_iff in H; destruct H as [Hc Hs].
  apply occurs_step; auto.
  destruct (Ascii.eqb c "#") eqn:E; [|apply miss_head; intros ->; discriminate].
  rewrite app_nil_r in Hc; cbn [match_here py list_ascii_of_string lit].
  rewrite Ascii.eqb_sym, E.
  destruct s as [|v s]; [reflexivity|].
  destruct (Ascii.eqb "v" v) eqn:Ev; [|reflexivity].
  apply Ascii.eqb_eq in Ev; subst v; discriminate.
Qed.

(** *** The version pass *)

Lemma word_not_hash c : is_word c = true -> c <> "#"%char.
Proof. intros H ->; discriminate. Qed.

(** The word after a [#] stays when no version directive opens at its
    end. *)
Lemma head_word_version (s : text) :
  opens_version_directive (after_word s) = false ->
  head_word (erase version_re s) = head_word s.
Proof.
  induction s as [|c s IH]; [reflexivity|]; cbn [after_word head_word].
  destruct (is_word c) eqn:Ec; intros H.
  - rewrite erase_miss by (apply miss_head, word_not_hash, Ec).
    cbn [head_word]; now rewrite Ec, IH.
  - unfold opens_version_directive in H.
    destruct (match_here version_re (c :: s)) eqn:E; [discriminate|].
    rewrite (erase_miss _ _ _ E); cbn [head_word]; now rewrite Ec.
Qed.

Lemma version_pass_calm (s : text) :
  orderly s = true -> calm (erase version_re s) [] = true.
Proof.
  remember (List.length s) as n eqn:Hn; revert s Hn.
  induction n as [n IH] using lt_wf_ind; intros s Hn H.
  destruct s as [|c s]; [reflexivity|].
  destruct (match_here version_re (c :: s)) as [[gs rest]|] eqn:E.
  - rewrite (erase_hit _ _ _ _ opens_version E).
    destruct (match_here_sound _ _ _ _ E) as (m & Hm & Hmm).
    destruct (matched_head _ _ _ _ _ Hmm) as (m' & ->).
    rewrite <- app_comm_cons in Hm; inversion Hm; subst.
    apply (IH (List.length rest)); auto.
    + simpl; rewrite length_app; lia.
    + apply (orderly_tail ("#"%char :: m')); exact H.
  - rewrite (erase_miss _ _ _ E).
    cbn [orderly] in H; apply andb_true_iff in H; destruct H as [Hc Hs].
    cbn [calm]; rewrite app_nil_r.
    rewrite (IH (List.length s)), andb_true_r; auto; [|subst n; simpl; lia].
    destruct (Ascii.eqb c "#"); [|reflexivity].
    unfold opens_version_directive at 1 in Hc; rewrite E in Hc.
    cbn [orb] in Hc; apply andb_true_iff in Hc; destruct Hc as [Hq Ho].
    apply negb_true_iff in Ho; now rewrite head_word_version.
Qed.

(** *** The precision pass *)

Lemma head_word_all (s : text) : all is_word (head_word s).
Proof.
  induction s as [|c s IH]; cbn [head_word]; [constructor|].
  destruct (is_word c) eqn:E; constructor; auto.
Qed.

Lemma head_after (s : text) : s = head_word s ++ after_word s.
Proof.
  induction s as [|c s IH]; cbn [head_word after_word]; [reflexivity|].
  destruct (is_word c); [|reflexivity].
  rewrite <- app_comm_cons; now f_equal.
Qed.

Lemma after_word_stops (s : text) : stops is_word (after_word s).
Proof.
  induction s as [|c s IH]; cbn [after_word]; [exact I|].
  destruct (is_word c) eqn:E; [exact IH|exact E].
Qed.

(** No precision statement begins in a word in which [precision] does
    not occur. *)
Lemma precision_not_in_word (w t : text) :
  all is_word w -> stops is_word t ->
  match_here [Lit (py "precision")] w = None ->
  match_here precision_re (w ++ t) = None.
Proof.
  intros Hw Ht H; unfold precision_re; cbn [match_here] in *.
  destruct (lit (py "precision") (w ++ t)) as [r|] eqn:E; [|reflexivity].
  destruct (lit_app_inv _ _ _ _ E) as [(r' & Hr)|(l2 & Hne & Hl & Hl2)].
  - rewrite Hr in H; discriminate.
  - exfalso; destruct l2 as [|x l2]; [congruence|].
    destruct t as [|c t]; [discriminate|].
    cbn [lit] in Hl2; destruct (Ascii.eqb x c) eqn:Ex; [|discriminate].
    apply Ascii.eqb_eq in Ex; subst c; cbn [stops] in Ht.
    assert (Hin : In x (py "precision"))
      by (rewrite Hl; apply in_or_app; right; now left).
    cbn in Hin; decompose [or] Hin; subst; try discriminate; contradiction.
Qed.

Lemma head_word_precision (s : text) :
  contains (py "precision") (head_word s) = false ->
  head_word (erase precision_re s) = head_word s.
Proof.
  induction s as [|c s IH]; [reflexivity|]; cbn [head_word].
  destruct (is_word c) eqn:Ec; intros H.
  - apply occurs_cons in H; destruct H as [H1 H2].
    rewrite erase_miss.
    + cbn [head_word]; now rewrite Ec, IH.
    + rewrite (head_after s), app_comm_cons.
      apply precision_not_in_word.
      * constructor; [exact Ec|apply head_word_all].
      * apply after_word_stops.
      * exact H1.
  - rewrite erase_miss by (apply miss_head; intros ->; discriminate).
    cbn [head_word]; now rewrite Ec.
Qed.

Lemma precision_pass_calm (s : text) :
  calm s [] = true -> calm (erase precision_re s) [] = true.
Proof.
  remember (List.length s) as n eqn:Hn; revert s Hn.
  induction n as [n IH] using lt_wf_ind; intros s Hn H.
  destruct s as [|c s]; [reflexivity|].
  destruct (match_here precision_re (c :: s)) as [[gs rest]|] eqn:E.
  - rewrite (erase_hit precision_re _ _ _ I E).
    destruct (match_here_sound _ _ _ _ E) as (m & Hm & Hmm).
    destruct (matched_head _ _ _ _ _ Hmm) as (m' & ->).
    rewrite <- app_comm_cons in Hm; inversion Hm; subst.
    apply (IH (List.length rest)); auto.
    + simpl; rewrite length_app; lia.
    + apply (calm_tail ("p"%char :: m')); exact H.
  - rewrite (erase_miss _ _ _ E).
    cbn [calm] in *; rewrite app_nil_r in *.
    apply andb_true_iff in H; destruct H as [Hc Hs].
    rewrite (IH (List.length s)), andb_true_r; auto; [|subst n; simpl; lia].
    destruct (Ascii.eqb c "#"); [|reflexivity].
    rewrite head_word_precision; auto.
    unfold quiet in Hc; apply andb_true_iff in Hc; destruct Hc as [_ Hp].
    now apply negb_true_iff in Hp.
Qed.

(** *** The passes that write *)

(** A pass keeps a text calm when what it writes is calm wherever it
    stands, and begins with the word that the match began with, or with
    less of it. *)
Lemma pass_calm {St} p (f : list text -> M St text) :
  opens p ->
  (forall (s : text) gs rest st st1 new,
     match_here p s = Some (gs, rest) -> calm s [] = true ->
     f gs st = (st1, Ok new) ->
     (forall y, calm new y = true) /\
     (forall y, exists r, head_word s = head_word (new ++ y) ++ r)) ->
  forall (s : text) st st' out,
    calm s [] = true -> re_sub p f s st = (st', Ok out) ->
    calm out [] = true /\ exists r, head_word s = head_word out ++ r.
Proof.
  intros Hp Hf s; remember (List.length s) as n eqn:Hn; revert s Hn.
  induction n as [n IH] using lt_wf_ind; intros s Hn st st' out H E.
  destruct s as [|c s].
  - rewrite re_sub_nil in E; inversion E; subst; split; [reflexivity|].
    exists []; reflexivity.
  - destruct (match_here p (c :: s)) as [[gs rest]|] eqn:Em.
    + rewrite (re_sub_hit _ _ _ _ _ Hp Em) in E; unfold bind at 1 in E.
      destruct (f gs st) as [st1 [new|e|]] eqn:Ef; try discriminate.
      unfold bind at 1 in E.
      destruct (re_sub p f rest st1) as [st2 [out'|e|]] eqn:Er;
        try discriminate.
      inversion E; subst st2 out; clear E.
      destruct (Hf _ _ _ _ _ _ Em H Ef) as [Hc Hh].
      destruct (match_here_sound _ _ _ _ Em) as (m & Hm & Hmm).
      assert (Hlen : (List.length rest < n)%nat).
      { destruct p as [|[[|a l]| |] p]; try contradiction.
        destruct (matched_head _ _ _ _ _ Hmm) as (m' & ->).
        subst n; rewrite Hm, length_app; simpl; lia. }
      destruct (IH (List.length rest) Hlen rest eq_refl st1 st' out')
        as [Hc' _]; auto.
      { rewrite Hm in H; exact (calm_tail _ _ _ H). }
      split; [|apply Hh].
      now rewrite calm_app, Hc, Hc'.
    + rewrite (re_sub_miss _ _ _ _ Em) in E; unfold bind in E.
      destruct (re_sub p f s st) as [st1 [out'|e|]] eqn:Er; try discriminate.
      inversion E; subst st1 out; clear E.
      cbn [calm] in H; rewrite app_nil_r in H.
      apply andb_true_iff in H; destruct H as [Hc Hs].
      assert (Hlen : (List.length s < n)%nat) by (subst n; simpl; lia).
      destruct (IH (List.length s) Hlen s eq_refl st st' out' Hs Er)
        as [Hc' [r Hr]].
      split.
      * cbn [calm]; rewrite app_nil_r, Hc', andb_true_r.
        destruct (Ascii.eqb c "#"); [|reflexivity].
        rewrite Hr in Hc; exact (quiet_front _ _ Hc).
      * cbn [head_word]; destruct (is_word c); [|exists []; reflexivity].
        exists r; now rewrite Hr.
Qed.

Lemma calm_line (x y z : text) :
  stops is_word y -> calm x y = true -> stops is_word z -> calm x z = true.
Proof. intros Hy H Hz; now rewrite (calm_stop x z y Hz Hy). Qed.

Ltac calm_parts :=
  rewrite ?calm_app;
  repeat (apply andb_true_intro; split);
  try reflexivity;
  try (eapply calm_line; [|eassumption|]; [exact I || reflexivity|reflexivity]).

Lemma returned {St A} (st st1 : St) (a b : A) :
  (st, Ok a) = (st1, Ok b) -> st = st1 /\ a = b.
Proof. intros H; inversion H; auto. Qed.

Ltac written E :=
  unfold ret in E; apply returned in E; destruct E as [<- <-];
  split; intros y; [calm_parts|exists []; reflexivity].

(** The comment that takes the place of an import directive. *)
Lemma import_comment_calm fs rec :
  orderly_files fs ->
  (forall content st st1 inc,
     orderly content = true -> rec content st = (st1, Ok inc) ->
     calm inc [] = true) ->
  (forall content st st1 e,
     rec content st = (st1, Raise e) -> calm e [] = true) ->
  forall (s : text) gs rest st st1 new,
    match_here import_re s = Some (gs, rest) -> calm s [] = true ->
    replace_import fs rec gs st = (st1, Ok new) ->
    (forall y, calm new y = true) /\
    (forall y, exists r, head_word s = head_word (new ++ y) ++ r).
Proof.
  intros Hfs Hok Hraise s gs rest st st1 new Em H E.
  destruct (match_here_sound _ _ _ _ Em) as (m & -> & Hm).
  destruct (matched_import _ _ Hm) as (ws & path & -> & -> & _ & Hws & _ & _).
  assert (Hp : calm path (py ">" ++ rest) = true).
  { rewrite <- !app_assoc, !calm_app, !app_nil_r in H.
    repeat (apply andb_true_iff in H; destruct H as [? H]).
    assumption. }
  unfold replace_import in E; cbn [group1 nth] in E.
  destruct (startswith (py "minecraft:") path).
  - unfold bind at 1 in E; cbn [get] in E.
    destruct (set_mem _ _ _).
    { written E. }
    set (full := joinpath fs _ _) in E.
    pose proof (Hfs full) as Hf.
    destruct (lookup fs full) as [|content|msg|msg]; cbn [orderly_file] in Hf.
    + written E.
    + unfold bind at 1 in E; cbn [include] in E; unfold try_except, bind in E.
      destruct (rec content _) as [st2 [inc|e|]] eqn:Er; try discriminate.
      * pose proof (Hok _ _ _ _ Hf Er) as Hi.
        written E.
      * pose proof (Hraise _ _ _ _ Er) as He.
        written E.
    + unfold bind at 1 in E; cbn [include] in E.
      unfold try_except, raise in E.
      written E.
    + discriminate.
  - written E.
Qed.

Lemma matched_layout m gs :
  matched layout_re m gs ->
  exists ws1 ws2 name,
    m = py "layout(std140)" ++ ws1 ++ py "uniform" ++ ws2 ++ name /\
    gs = [name] /\ all is_word name.
Proof.
  intros H; unfold layout_re in H.
  inversion H as [|l1 p1 m1 gs1 H1| |]; subst; clear H.
  inversion H1 as [| |cls2 p2 ws1 m2 gs2 _ _ H2|]; subst; clear H1.
  inversion H2 as [|l3 p3 m3 gs3 H3| |]; subst; clear H2.
  inversion H3 as [| |cls4 p4 ws2 m4 gs4 _ _ H4|]; subst; clear H3.
  inversion H4 as [| | |cls5 p5 name m5 gs5 _ Hn H5]; subst; clear H4.
  inversion H5; subst.
  exists ws1, ws2, name; rewrite app_nil_r; repeat split; auto.
Qed.

Lemma matched_sampler m gs :
  matched sampler_re m gs ->
  exists ws1 ws2 name,
    m = py "uniform" ++ ws1 ++ py "sampler2D" ++ ws2 ++ name ++ py ";" /\
    gs = [name] /\ all is_word name.
Proof.
  intros H; unfold sampler_re in H.
  inversion H as [|l1 p1 m1 gs1 H1| |]; subst; clear H.
  inversion H1 as [| |cls2 p2 ws1 m2 gs2 _ _ H2|]; subst; clear H1.
  inversion H2 as [|l3 p3 m3 gs3 H3| |]; subst; clear H2.
  inversion H3 as [| |cls4 p4 ws2 m4 gs4 _ _ H4|]; subst; clear H3.
  inversion H4 as [| | |cls5 p5 name m5 gs5 _ Hn H5]; subst; clear H4.
  inversion H5 as [|l6 p6 m6 gs6 H6| |]; subst; clear H5.
  inversion H6; subst.
  exists ws1, ws2, name; repeat split; auto.
Qed.

(** The declaration with its index begins with [layout], as the
    declaration did, and has no [#]. *)
Lemma bound_calm (s : text) gs rest st st1 new :
  match_here layout_re s = Some (gs, rest) -> calm s [] = true ->
  add_binding gs st = (st1, Ok new) ->
  (forall y, calm new y = true) /\
  (forall y, exists r, head_word s = head_word (new ++ y) ++ r).
Proof.
  intros Em _ E.
  destruct (match_here_sound _ _ _ _ Em) as (m & -> & Hm).
  destruct (matched_layout _ _ Hm) as (ws1 & ws2 & name & -> & -> & Hn).
  unfold add_binding in E; apply returned in E; destruct E as [_ <-].
  cbn [group1 nth]; split; intros y.
  - apply calm_no_hash; not_in.
  - exists []; reflexivity.
Qed.

(** The note on a sampler begins with a slash and has no [#]. *)
Lemma sampler_note_calm (s : text) gs rest (st st1 : ShaderPreprocessor) new :
  match_here sampler_re s = Some (gs, rest) -> calm s [] = true ->
  ret (sampler_note gs) st = (st1, Ok new) ->
  (forall y, calm new y = true) /\
  (forall y, exists r, head_word s = head_word (new ++ y) ++ r).
Proof.
  intros Em _ E.
  destruct (match_here_sound _ _ _ _ Em) as (m & -> & Hm).
  destruct (matched_sampler _ _ Hm) as (ws1 & ws2 & name & -> & -> & Hn).
  unfold ret in E; apply returned in E; destruct E as [_ <-].
  unfold sampler_note; cbn [group1 nth]; split; intros y.
  - apply calm_no_hash; not_in.
  - eexists; reflexivity.
Qed.

(** *** The call *)

(** What a call on an orderly source returns is calm, whatever the
    depth. *)
Lemma preprocess_calm fs :
  orderly_files fs ->
  forall depth (source : text) self self' out,
    orderly source = true ->
    preprocess depth fs source self = (self', Ok out) ->
    calm out [] = true.
Proof.
  intros Hfs depth; induction depth as [|depth IH];
    intros source self self' out Hs H; [discriminate|].
  rewrite preprocess_later in H.
  unfold later_passes, bind at 1, preprocess_moj_imports, bind at 1 in H.
  cbn [reset_included] in H.
  destruct (re_sub import_re _ _ _) as [mid [imported|e|]] eqn:Ei;
    try discriminate.
  unfold bind at 1 in H; rewrite re_sub_const in H.
  fold (erase precision_re imported) in H.
  unfold bind at 1 in H.
  destruct (re_sub layout_re add_binding _ mid) as [st3 [s3|e|]] eqn:El;
    try discriminate.
  assert (H1 : calm imported [] = true).
  { eapply (pass_calm import_re); [exact I| |apply version_pass_calm, Hs|exact Ei].
    apply import_comment_calm; [exact Hfs| |].
    - intros content st st1 inc Hc E; exact (IH _ _ _ _ Hc E).
    - intros content st st1 e E.
      destruct (excuses_preprocess depth fs content st e) as [path Hp];
        [now rewrite E|].
      specialize (Hfs path); now rewrite Hp in Hfs. }
  apply precision_pass_calm in H1.
  assert (H2 : calm s3 [] = true).
  { eapply (pass_calm layout_re); [exact I| |exact H1|exact El].
    intros s gs rest st st1 new Em Hc E.
    exact (bound_calm s gs rest st st1 new Em Hc E). }
  eapply (pass_calm sampler_re); [exact I| |exact H2|exact H].
  intros s gs rest st st1 new Em Hc E.
  exact (sampler_note_calm s gs rest st st1 new Em Hc E).
Qed.

(** An import that settles returns. *)
Lemma gives_replace_import fs dir rec gs :
  (if startswith (py "minecraft:") (group1 gs) then
     match lookup fs (joinpath fs dir
                        (str_replace (py "minecraft:") [] (group1 gs))) with
     | Missing => True
     | Unreadable _ => True
     | Inaccessible _ => False
     | Readable content => gives (at_dir dir) (rec content) (fun _ => True)
     end
   else True) ->
  gives (at_dir dir) (replace_import fs rec gs) (fun _ => True).
Proof.
  intros H self Hself; unfold replace_import.
  destruct (startswith _ _); [|eexists _, _; repeat split; eauto].
  unfold bind at 1; cbn [get]; rewrite Hself.
  destruct (set_mem _ _ _); [eexists _, _; repeat split; eauto|].
  destruct (lookup fs _) as [|content|msg|msg].
  - eexists _, _; repeat split; eauto.
  - unfold bind at 1; cbn [include]; unfold try_except, bind.
    destruct (H (added (joinpath fs dir
                          (str_replace (py "minecraft:") [] (group1 gs))) self)
                Hself) as (self' & inc & E & H' & _).
    unfold added in E; rewrite E.
    eexists _, _; repeat split; eauto.
  - eexists _, _; repeat split; eauto.
  - contradiction.
Qed.

Lemma gives_pass {St} (I : St -> Prop) p (f : list text -> M St text)
    (s : text) :
  (forall gs, gives I (f gs) (fun _ => True)) ->
  gives I (re_sub p f s) (fun _ => True).
Proof.
  intros Hf; unfold re_sub; induction (scan p 0 s) as [|[c|gs] segs IH];
    cbn [splice].
  - now apply gives_ret.
  - eapply gives_bind; [exact IH|]; intros; now apply gives_ret.
  - eapply gives_bind; [apply Hf|]; intros.
    eapply gives_bind; [exact IH|]; intros; now apply gives_ret.
Qed.

(** The passes after the version pass return when every import does. *)
Lemma gives_later fs dir depth (inner : text -> bool) (s : text) :
  (forall content,
     inner content = true ->
     gives (at_dir dir) (preprocess depth fs content) (fun _ => True)) ->
  forallb
    (fun g =>
       match g with
       | Chr _ => true
       | Hit gs =>
           if startswith (py "minecraft:") (group1 gs) then
             match lookup fs (joinpath fs dir
                                (str_replace (py "minecraft:") [] (group1 gs)))
             with
             | Missing => true
             | Unreadable _ => true
             | Inaccessible _ => false
             | Readable content => inner content
             end
           else true
       end)
    (scan import_re 0 s) = true ->
  gives (at_dir dir) (later_passes depth fs s) (fun _ => True).
Proof.
  intros Hrec H; unfold later_passes.
  apply gives_bind with (Q := fun _ => True).
  { unfold preprocess_moj_imports.
    apply gives_bind with (Q := fun _ => True).
    { intros st Hst; eexists _, _; repeat split; eauto. }
    intros _ _; unfold re_sub.
    induction (scan import_re 0 s) as [|[c|gs] segs IH]; cbn [splice].
    - now apply gives_ret.
    - cbn [forallb] in H.
      eapply gives_bind; [exact (IH H)|]; intros; now apply gives_ret.
    - cbn [forallb] in H; apply andb_true_iff in H; destruct H as [Hg H].
      eapply gives_bind with (Q := fun _ => True).
      + apply gives_replace_import.
        destruct (startswith _ _); [|exact I].
        destruct (lookup fs _); auto; discriminate.
      + intros; eapply gives_bind; [exact (IH H)|]; intros; now apply gives_ret. }
  intros s1 _; apply gives_bind with (Q := fun _ => True).
  { apply gives_pass; intros; now apply gives_ret. }
  intros s2 _; apply gives_bind with (Q := fun _ => True).
  { apply gives_pass; intros gs st Hst; eexists _, _; repeat split; eauto. }
  intros s3 _; apply gives_pass; intros; now apply gives_ret.
Qed.

Lemma settles_returns fs dir nesting (s : text) :
  settles fs dir nesting s = true ->
  gives (at_dir dir) (preprocess (S nesting) fs s) (fun _ => True).
Proof.
  revert s; induction nesting as [|n IH]; intros s H self Hself;
    rewrite preprocess_later; cbn [settles] in H.
  - apply (gives_later fs dir 0 (fun _ => false)); auto; discriminate.
  - apply (gives_later fs dir (S n) (settles fs dir n)); auto.
Qed.

Lemma orderly_directory l :
  forallb (fun entry => orderly_file (snd entry)) l = true ->
  orderly_files (directory l).
Proof.
  intros H path; cbn [directory lookup].
  induction l as [|[name f] l IH]; cbn [files]; [reflexivity|].
  cbn [forallb snd] in H; apply andb_true_iff in H; destruct H as [Hf H].
  destruct (text_eqb (py name) path); auto.
Qed.

(** C5, corrected. Take a source in which every [#] opens a version
    directive, [#version] with its blanks and digits, or has a quiet word
    after it, one that does not begin with [v] and in which [precision]
    does not occur (no word at all is one), with no version directive
    opening where that word ends; and a directory in which every file
    that can be read is such a source, and no [#] of a message of
    [exists()], [open] or [read] has a word after it that is not quiet.
    Then whatever a call returns holds no [#version]; and the call does
    return when the imports lead, through at most [nesting] files one
    inside the other, to paths on which [exists()] answers. *)
Theorem version_directives_removed fs (source : text) :
  orderly source = true -> orderly_files fs ->
  (forall depth self self' out,
     preprocess depth fs source self = (self', Ok out) ->
     contains (py "#version") out = false) /\
  (forall nesting self,
     settles fs (include_dir self) nesting source = true ->
     exists self' out,
       preprocess (S nesting) fs source self = (self', Ok out) /\
       contains (py "#version") out = false).
Proof.
  intros Hs Hfs.
  assert (H : forall depth self self' out,
             preprocess depth fs source self = (self', Ok out) ->
             contains (py "#version") out = false).
  { intros depth self self' out E.
    apply calm_no_version, (preprocess_calm fs Hfs depth source self self' out Hs E). }
  split; [exact H|].
  intros nesting self Hn.
  destruct (settles_returns _ _ _ _ Hn self eq_refl) as (self' & out & E & _).
  exists self', out; split; [exact E|exact (H _ _ _ _ E)].
Qed.

Lemma version_directives_removed_witness :
  orderly terrain_source = true /\ orderly_files terrain_files /\
  settles terrain_files (py "include") 2 terrain_source = true /\
  exists self' out,
    preprocess 3 terrain_files terrain_source (new_preprocessor (py "include"))
    = (self', Ok out) /\
    contains (py "#version") out = false.
Proof.
  assert (Hf : orderly_files terrain_files)
    by (apply orderly_directory; reflexivity).
  split; [reflexivity|]; split; [exact Hf|]; split; [reflexivity|].
  apply (proj2 (version_directives_removed terrain_files terrain_source
                  eq_refl Hf) 2%nat (new_preprocessor (py "include"))).
  reflexivity.
Defined.

(** C5 as stated fails: a [#version] that no digits follow stays. *)
Lemma version_without_digits_stays :
  exists out,
    output (preprocess 1 (directory []) (py "#version core")
              (new_preprocessor (py "include"))) = Ok out /\
    contains (py "#version") out = true.
Proof. exists (py "#version core"); split; reflexivity. Qed.

(** Each part of the condition is needed: a word after a [#] that begins
    with [v], the word [precision] after a [#], a version directive
    right after a [#], and a path of an import that holds [#version]
    leave a [#version] behind. *)
Example version_left_behind :
  Forall (fun source =>
            exists out,
              output (preprocess 1 (directory []) source
                        (new_preprocessor (py "include"))) = Ok out /\
              contains (py "#version") out = true)
    [py "#ver#version 1sion 150";
     py "#precision lowp float;version 150";
     py "##version 1version 150";
     py "#moj_import <#version>"].
Proof.
  repeat (apply Forall_cons;
          [eexists; split; [vm_compute; reflexivity|reflexivity]|]).
  apply Forall_nil.
Qed.

(** ** C6 *)


















(** ** C7 *)

(** The import pass at a directive on whose path [exists()] raises. *)
Lemma import_pass_raises fs rec (front ws path rest : text) st st1 e :
  ~ In "#"%char front -> blanks ws -> path <> [] -> all not_gt path ->
  replace_import fs rec [path] st = (st1, Raise e) ->
  re_sub import_re (replace_import fs rec)
    (front ++ import_directive ws path ++ rest) st
  = (st1, Raise e).
Proof.
  intros Hf [Hw Hws] Hp Hg E1.
  rewrite re_sub_skip by (apply misses_absent; exact Hf).
  unfold bind at 1, import_directive; rewrite <- !app_assoc.
  rewrite (re_sub_hit _ _ _ _ _ opens_import
             (match_import_shape ws path rest Hw Hws Hp Hg)).
  unfold bind at 1; now rewrite E1.
Qed.

Lemma later_passes_raise depth fs (s : text) self self' e :
  re_sub import_re (replace_import fs (preprocess depth fs)) s (cleared self)
  = (self', Raise e) ->
  later_passes depth fs s self = (self', Raise e).
Proof.
  intros E; unfold later_passes, bind at 1, preprocess_moj_imports, bind at 1.
  cbn [reset_included]; fold (cleared self); now rewrite E.
Qed.

(** C7 fails on the code. The test [full_path.exists()] stands in front
    of the [try], and it raises where the path cannot be examined: the
    exception then leaves [preprocess], and no comment is written. This
    is the one way in which an exception leaves a call. Where the test
    answers, a directive whose file is missing gives way to the comment
    [// Missing import: minecraft:NAME], and one whose file cannot be
    read to [// Error importing minecraft:NAME:] with the message, the
    text around them staying; and a call fails to come to an end only
    inside a nested call on a file that can be read. *)
Theorem inaccessible_import_raises depth fs self :
  (forall (front ws name rest : text),
     blanks ws -> all inert name -> all inert front -> all inert rest ->
     (forall msg,
        lookup fs (resolve fs self (py "minecraft:" ++ name)) = Inaccessible msg ->
        preprocess (S depth) fs
          (front ++ import_directive ws (py "minecraft:" ++ name) ++ rest) self
        = (cleared self, Raise msg)) /\
     (lookup fs (resolve fs self (py "minecraft:" ++ name)) = Missing ->
      preprocess (S depth) fs
        (front ++ import_directive ws (py "minecraft:" ++ name) ++ rest) self
      = (cleared self,
         Ok (front ++ py "// Missing import: minecraft:" ++ name ++ nl ++ rest)))
     /\
     (forall msg, all inert msg ->
        lookup fs (resolve fs self (py "minecraft:" ++ name)) = Unreadable msg ->
        preprocess (S depth) fs
          (front ++ import_directive ws (py "minecraft:" ++ name) ++ rest) self
        = (added (resolve fs self (py "minecraft:" ++ name)) (cleared self),
           Ok (front ++ py "// Error importing minecraft:" ++ name ++ py ": "
               ++ msg ++ nl ++ rest)))) /\
  (forall source e,
     output (preprocess (S depth) fs source self) = Raise e ->
     inaccessible fs e) /\
  (forall source,
     output (preprocess (S depth) fs source self) = Unfinished ->
     stuck_inside fs (preprocess depth fs)).
Proof.
  split; [|split].
  2:{ intros source e H; exact (excuses_preprocess _ _ _ _ _ H). }
  2:{ intros source H; exact (blames_preprocess _ _ _ _ H). }
  intros front ws name rest Hws Hn Hf Hr.
  destruct (inert_parts _ Hn) as (Hn1 & Hn2 & Hn3 & Hn4).
  destruct (inert_parts _ Hf) as (Hf1 & _ & Hf3 & Hf4).
  destruct (inert_parts _ Hr) as (Hr1 & _ & Hr3 & Hr4).
  destruct (blanks_parts _ (proj2 Hws)) as (Hw1 & _).
  assert (Hp : all not_gt (py "minecraft:" ++ name)).
  { constructor; [reflexivity|]; repeat (constructor; [reflexivity|]).
    exact Hn2. }
  assert (Hh : ~ In "#"%char (py "minecraft:" ++ name)) by not_in.
  assert (Hi : needs import_re "#") by (exists (py "#moj_import"); simpl; auto).
  assert (Hv : erase version_re
                 (front ++ import_directive ws (py "minecraft:" ++ name) ++ rest)
               = front ++ import_directive ws (py "minecraft:" ++ name) ++ rest).
  { apply erase_clean.
    rewrite version_absent, version_skips_import; auto.
    apply (absent_clean _ _ _ needs_hash_version Hr1). }
  assert (Hc : forall st,
             re_sub import_re (replace_import fs (preprocess depth fs)) rest st
             = (st, Ok rest))
    by (intros st; apply re_sub_clean, (absent_clean _ _ _ Hi Hr1)).
  split; [|split].
  - intros msg Hl; rewrite preprocess_later, Hv.
    apply later_passes_raise, import_pass_raises; auto; try discriminate.
    rewrite replace_import_minecraft by reflexivity.
    change (resolve fs (cleared self) ?x) with (resolve fs self x).
    now rewrite Hl.
  - intros Hl; rewrite preprocess_later, Hv.
    rewrite (later_passes_from _ _ _ _ (cleared self)
               (front ++ (py "// Missing import: minecraft:" ++ name ++ nl)
                ++ rest)).
    + rewrite <- !app_assoc; apply tail_passes_clean; not_in.
    + apply (import_pass_at _ _ _ _ _ _ _ (cleared self)); auto;
        try discriminate.
      rewrite replace_import_minecraft by reflexivity.
      change (resolve fs (cleared self) ?x) with (resolve fs self x).
      rewrite Hl, <- !app_assoc; reflexivity.
  - intros msg Hm Hl; destruct (inert_parts _ Hm) as (_ & _ & Hm3 & Hm4).
    rewrite preprocess_later, Hv.
    rewrite (later_passes_from _ _ _ _
               (added (resolve fs self (py "minecraft:" ++ name)) (cleared self))
               (front ++ (py "// Error importing minecraft:" ++ name ++ py ": "
                          ++ msg ++ nl) ++ rest)).
    + rewrite <- !app_assoc; apply tail_passes_clean; not_in.
    + apply (import_pass_at _ _ _ _ _ _ _
               (added (resolve fs self (py "minecraft:" ++ name)) (cleared self)));
        auto; try discriminate.
      rewrite replace_import_minecraft by reflexivity.
      change (resolve fs (cleared self) ?x) with (resolve fs self x).
      rewrite Hl, <- !app_assoc; reflexivity.
Qed.

Lemma inaccessible_import_raises_witness :
  preprocess 1 out_of_reach
    (py "// sky
" ++ import_directive (py " ") (py "minecraft:" ++ py "locked/deep.glsl") ++ py "
void main{}") (new_preprocessor (py "include"))
  = (new_preprocessor (py "include"),
     Raise (py "[Errno 13] Permission denied: 'include/locked/deep.glsl'")) /\
  preprocess 1 out_of_reach
    (py "// sky
" ++ import_directive (py " ") (py "minecraft:" ++ py "fog.glsl") ++ py "
void main{}") (new_preprocessor (py "include"))
  = (new_preprocessor (py "include"),
     Ok (py "// sky
// Missing import: minecraft:fog.glsl

void main{}")) /\
  preprocess 1 broken
    (py "// sky
" ++ import_directive (py " ") (py "minecraft:" ++ py "sky.glsl") ++ py "
void main{}") (new_preprocessor (py "include"))
  = (instance [py "include/sky.glsl"] 0 [],
     Ok (py "// sky
// Error importing minecraft:sky.glsl: [Errno 13] Permission denied

void main{}")).
Proof.
  assert (Hb : blanks (py " ")) by (split; [discriminate | repeat constructor]).
  assert (Hf : all inert (py "// sky
")) by (repeat constructor).
  assert (Hr : all inert (py "
void main{}")) by (repeat constructor).
  split; [|split].
  - apply (proj1 (proj1 (inaccessible_import_raises 0 out_of_reach
                           (new_preprocessor (py "include")))
                        _ _ (py "locked/deep.glsl") _ Hb
                        ltac:(repeat constructor) Hf Hr)).
    reflexivity.
  - apply (proj1 (proj2 (proj1 (inaccessible_import_raises 0 out_of_reach
                                  (new_preprocessor (py "include")))
                               _ _ (py "fog.glsl") _ Hb
                               ltac:(repeat constructor) Hf Hr))).
    reflexivity.
  - apply (proj2 (proj2 (proj1 (inaccessible_import_raises 0 broken
                                  (new_preprocessor (py "include")))
                               _ _ (py "sky.glsl") _ Hb
                               ltac:(repeat constructor) Hf Hr))
                 (py "[Errno 13] Permission denied")
                 ltac:(repeat constructor)).
    reflexivity.
Defined.

(** ** C8 *)

(** C8. A source in which no [#moj_import], [#version], [precision],
    [layout(std140) uniform] or [uniform sampler2D] token occurs comes
    back from [preprocess] as it is, and the counter stays where it was. *)
Theorem preprocess_plain_identity depth fs (source : text) self :
  plain source = true ->
  preprocess (S depth) fs source self = (cleared self, Ok source).
Proof.
  intros H; apply plain_clean in H; destruct H as (Hv & Hi & Hp & Hl & Hs).
  now apply preprocess_clean.
Qed.

Lemma preprocess_plain_identity_witness :
  plain (py "void main() { gl_Position = vec4(0.0); }") = true /\
  preprocess 1 (directory []) (py "void main() { gl_Position = vec4(0.0); }")
    (new_preprocessor (py "include"))
  = (cleared (new_preprocessor (py "include")),
     Ok (py "void main() { gl_Position = vec4(0.0); }")).
Proof.
  split; [reflexivity|].
  apply (preprocess_plain_identity 0 (directory []) _ _); reflexivity.
Defined.

(** ** C9 *)

(** C9, amended. An output of [preprocess] in which no directive of the
    five shapes is left comes back unchanged from a second run, at any
    depth and over any directory, and the counter stays where the first
    run left it; and a declaration that [add_binding] has written is not
    matched by the binding pass again. *)
Theorem rerun_without_directives depth fs (source : text) self self1 out :
  preprocess depth fs source self = (self1, Ok out) ->
  directive_free out = true ->
  (forall depth' fs',
     preprocess (S depth') fs' out self1 = (cleared self1, Ok out)) /\
  (forall n name self',
     all is_word name ->
     re_sub layout_re add_binding (bound n name) self'
     = (self', Ok (bound n name))).
Proof.
  intros _ H; apply directive_free_clean in H.
  destruct H as (Hv & Hi & Hp & Hl & Hs); split.
  - intros; now apply preprocess_clean.
  - intros; now apply re_sub_clean, bound_not_matched.
Qed.

Lemma rerun_without_directives_witness :
  preprocess 1 (directory []) fog_source (new_preprocessor (py "include"))
  = (fog_instance, Ok fog_output) /\
  directive_free fog_output = true /\
  preprocess 1 (directory []) fog_output fog_instance
  = (fog_instance, Ok fog_output).
Proof.
  split; [reflexivity|]; split; [reflexivity|].
  apply (proj1 (rerun_without_directives 1 (directory []) fog_source
                  (new_preprocessor (py "include")) fog_instance fog_output
                  eq_refl eq_refl) 0%nat (directory [])).
Defined.

(** C9 as stated fails: the text around a removed directive can close up
    to a new one, which a second run removes. *)
Lemma rerun_changes_spliced_version :
  exists self1 out,
    preprocess 1 (directory []) (py "#ver#version 1sion 150")
      (new_preprocessor (py "include")) = (self1, Ok out) /\
    occurs import_re out = false /\
    output (preprocess 1 (directory []) out self1) <> Ok out.
Proof.
  exists (new_preprocessor (py "include")), (py "#version 150").
  repeat split; try reflexivity.
  vm_compute; discriminate.
Qed.

(** The same with the binding pass: the second run finds a declaration
    that the first one passed over, and the counter moves on. *)
Example rerun_advances_counter :
  let source := py "layout(std140) uniform layout(std140) uniform Foo" in
  let first := preprocess 1 (directory []) source (new_preprocessor (py "include")) in
  let second := preprocess 1 (directory [])
                  (py "layout(std140, binding=0) uniform layout(std140) uniform Foo")
                  (fst first) in
  snd first = Ok (py "layout(std140, binding=0) uniform layout(std140) uniform Foo")
  /\ snd second = Ok (py "layout(std140, binding=0) uniform layout(std140, binding=1) uniform Foo")
  /\ binding_counter (fst first) = 1 /\ binding_counter (fst second) = 2.
Proof. vm_compute; auto. Qed.

(** ** C10 *)




(** * Further properties of the script

    ** What a call leaves in the include set *)

Lemma carries_ret {St A} (I : St -> Prop) (a : A) : carries I (ret a).
Proof. intros st st' r HI H _; inversion H; subst; exact HI. Qed.

Lemma carries_bind {St A B} (I : St -> Prop) (m : M St A) (f : A -> M St B) :
  carries I m -> (forall a, carries I (f a)) -> carries I (bind m f).
Proof.
  intros Hm Hf st st' r HI; unfold bind.
  destruct (m st) as [st1 [a|e|]] eqn:E.
  - intros H; exact (Hf a st1 st' r (Hm _ _ _ HI E ltac:(discriminate)) H).
  - intros H _; inversion H; subst.
    exact (Hm _ _ _ HI E ltac:(discriminate)).
  - intros H Hr; inversion H; subst; now destruct Hr.
Qed.

Lemma carries_splice {St} (I : St -> Prop) (f : list text -> M St text) segs :
  (forall gs, carries I (f gs)) -> carries I (splice f segs).
Proof.
  intros Hf; induction segs as [|[c|gs] segs IH]; cbn [splice].
  - apply carries_ret.
  - apply carries_bind; [exact IH | intros; apply carries_ret].
  - apply carries_bind; [apply Hf | intros].
    apply carries_bind; [exact IH | intros; apply carries_ret].
Qed.

Lemma carries_re_sub {St} (I : St -> Prop) p (f : list text -> M St text) s :
  (forall gs, carries I (f gs)) -> carries I (re_sub p f s).
Proof. apply carries_splice. Qed.

Lemma lands_bind {St A B} (I : St -> Prop) (m : M St A) (f : A -> M St B) :
  lands m I -> (forall a, carries I (f a)) -> lands (bind m f) I.
Proof.
  intros Hm Hf st st' r; unfold bind.
  destruct (m st) as [st1 [a|e|]] eqn:E.
  - intros H; exact (Hf a st1 st' r (Hm _ _ _ E ltac:(discriminate)) H).
  - intros H _; inversion H; subst.
    exact (Hm _ _ _ E ltac:(discriminate)).
  - intros H Hr; inversion H; subst; now destruct Hr.
Qed.

Lemma carries_add_binding fs gs : carries (failures_only fs) (add_binding gs).
Proof. intros st st' r HI H _; inversion H; subst; exact HI. Qed.

(** An import that comes to an end has added the path of a file that
    could not be read, or has gone through a nested call, or has added
    nothing. *)
Lemma carries_replace_import fs rec gs :
  (forall content, lands (rec content) (failures_only fs)) ->
  carries (failures_only fs) (replace_import fs rec gs).
Proof.
  intros Hrec self self' r HI; unfold replace_import.
  destruct (startswith _ _); [|intros H _; inversion H; subst; exact HI].
  unfold bind at 1; cbn [get].
  destruct (set_mem _ _ _); [intros H _; inversion H; subst; exact HI|].
  set (path := joinpath fs (include_dir self)
                 (str_replace (py "minecraft:") [] (group1 gs))).
  destruct (lookup fs path) as [|content|msg|msg] eqn:E.
  - intros H _; inversion H; subst; exact HI.
  - unfold bind at 1; cbn [include]; fold (added path self).
    unfold try_except, bind.
    destruct (rec content (added path self)) as [s1 [inc|e|]] eqn:R;
      intros H Hr; inversion H; subst;
      [| |now destruct Hr]; apply (Hrec _ _ _ _ R); discriminate.
  - unfold bind, try_except; cbn [include raise ret].
    intros H _; inversion H; subst; clear H.
    intros p Hp; cbn [included_files] in Hp.
    apply set_add_elim in Hp; destruct Hp as [->|Hp]; eauto.
  - intros H _; inversion H; subst; exact HI.
Qed.

Lemma lands_preprocess depth fs source :
  lands (preprocess depth fs source) (failures_only fs).
Proof.
  revert source; induction depth as [|depth IH]; intros source.
  - intros st st' r H Hr; inversion H; subst; now destruct Hr.
  - intros st; rewrite preprocess_later; revert st.
    change (lands (later_passes depth fs (erase version_re source))
              (failures_only fs)).
    unfold later_passes; apply lands_bind.
    { unfold preprocess_moj_imports; apply lands_bind.
      - intros st st' r H _; inversion H; subst; intros p Hp; destruct Hp.
      - intros _; apply carries_re_sub; intros gs.
        apply carries_replace_import; intros content; apply IH. }
    intros s2; apply carries_bind;
      [apply carries_re_sub; intros; apply carries_ret|intros s3].
    apply carries_bind;
      [apply carries_re_sub; intros; apply carries_add_binding|intros s4].
    apply carries_re_sub; intros; apply carries_ret.
Qed.

(** X1. When a call of [preprocess] has returned, the include set of the
    instance holds no path of a file that was included: every path in it
    is one of a file that could not be read. *)
Theorem include_set_holds_failures_only depth fs source self self' out :
  preprocess depth fs source self = (self', Ok out) ->
  failures_only fs self'.
Proof.
  intros H; apply (lands_preprocess depth fs source self self' (Ok out) H).
  discriminate.
Qed.

Lemma include_set_holds_failures_only_witness :
  preprocess 1 broken (py "#moj_import <minecraft:sky.glsl>")
    (new_preprocessor (py "include"))
  = (instance [py "include/sky.glsl"] 0 [],
     Ok (py "// Error importing minecraft:sky.glsl: [Errno 13] Permission denied
")) /\
  failures_only broken (instance [py "include/sky.glsl"] 0 []).
Proof.
  split; [reflexivity|].
  apply (include_set_holds_failures_only 1 broken
           (py "#moj_import <minecraft:sky.glsl>")
           (new_preprocessor (py "include")) _
           (py "// Error importing minecraft:sky.glsl: [Errno 13] Permission denied
")).
  reflexivity.
Defined.

(** ** A source without imports *)

(** X2. A source in which the version pass leaves no import directive is
    processed without a look at the include directory: the result is the
    same over every directory and at every depth of nesting. *)
Theorem import_free_source_reads_no_file depth depth' fs fs' (source : text)
    self :
  occurs import_re (erase version_re source) = false ->
  preprocess (S depth) fs source self = preprocess (S depth') fs' source self.
Proof.
  intros H; rewrite !preprocess_later.
  now rewrite !later_passes_no_import by exact H.
Qed.

Lemma import_free_source_reads_no_file_witness :
  occurs import_re (erase version_re fog_source) = false /\
  preprocess 1 (directory []) fog_source (new_preprocessor (py "include"))
  = preprocess 3 cycle fog_source (new_preprocessor (py "include")).
Proof.
  split; [reflexivity|].
  apply (import_free_source_reads_no_file 0 2 (directory []) cycle fog_source).
  reflexivity.
Defined.

(** ** The count of the blocks *)

Lemma preprocess_moves depth fs (source : text) self :
  occurs import_re (erase version_re source) = false ->
  exists out,
    preprocess (S depth) fs source self
    = (moved (blocks_in source) (cleared self), Ok out).
Proof.
  intros H; rewrite preprocess_later, later_passes_no_import by exact H.
  destruct (splice_add_binding
              (scan layout_re 0 (erase precision_re (erase version_re source)))
              (cleared self)) as [out E].
  destruct (re_sub_pure sampler_re sampler_note out
              (moved (blocks_in source) (cleared self))) as [out' E'].
  exists out'; unfold bind at 1; rewrite re_sub_const.
  fold (erase precision_re (erase version_re source)).
  unfold bind at 1, re_sub at 1.
  rewrite E; exact E'.
Qed.

(** X3. On a source in which the version pass leaves no import directive
    [preprocess] returns, and it moves the counter by the number of
    matches of [layout\(std140\)\s+uniform\s+(\w+)] in the text as the
    version pass and the precision pass leave it; the indices handed out
    are the next ones, in order. *)
Theorem counter_moves_by_blocks_found depth fs (source : text) self :
  occurs import_re (erase version_re source) = false ->
  exists out,
    preprocess (S depth) fs source self
    = (moved (findings layout_re (erase precision_re (erase version_re source)))
             (cleared self),
       Ok out).
Proof. apply preprocess_moves. Qed.

Lemma counter_moves_by_blocks_found_witness :
  occurs import_re (erase version_re fog_source) = false /\
  exists out,
    preprocess 1 (directory []) fog_source (instance [] 4 [0; 1; 2; 3])
    = (instance [] 5 [0; 1; 2; 3; 4], Ok out).
Proof.
  split; [reflexivity|].
  apply (counter_moves_by_blocks_found 0 (directory []) fog_source
           (instance [] 4 [0; 1; 2; 3])).
  reflexivity.
Defined.

(** ** The path of an import *)

Lemma match_literal (old s : text) : match_here [Lit old] (old ++ s) = Some ([], s).
Proof. now rewrite match_lit. Qed.

Lemma erase_literal a l (s : text) :
  erase [Lit (a :: l)] ((a :: l) ++ s) = erase [Lit (a :: l)] s.
Proof. exact (erase_hit [Lit (a :: l)] _ [] s I (match_literal _ _)). Qed.

(** X4. [replace] takes the prefix [minecraft:] out of an import path
    wherever it stands, not only in front: a path that holds it a second
    time names the same file as the path without the second one. *)
Theorem prefix_removed_wherever_it_stands fs self (a b : text) :
  ~ In "m"%char a ->
  resolve fs self (py "minecraft:" ++ a ++ py "minecraft:" ++ b)
  = resolve fs self (py "minecraft:" ++ a ++ b).
Proof.
  intros H; unfold resolve; f_equal.
  change (str_replace (py "minecraft:") [] ?x)
    with (erase [Lit (py "minecraft:")] x).
  change (py "minecraft:") with ("m"%char :: py "inecraft:").
  rewrite !erase_literal, !erase_pass by exact H.
  now rewrite erase_literal, (erase_pass _ _ _ a b H).
Qed.

Lemma prefix_removed_wherever_it_stands_witness :
  ~ In "m"%char (py "lib/") /\
  resolve (directory []) (new_preprocessor (py "include"))
    (py "minecraft:" ++ py "lib/" ++ py "minecraft:" ++ py "fog.glsl")
  = py "include/lib/fog.glsl".
Proof.
  assert (H : ~ In "m"%char (py "lib/")) by (simpl; intuition discriminate).
  split; [exact H|].
  rewrite (prefix_removed_wherever_it_stands (directory [])
             (new_preprocessor (py "include")) (py "lib/") (py "fog.glsl") H).
  reflexivity.
Defined.

(** ** One import directive *)

(** X5. An import whose path does not begin with [minecraft:] is not
    looked up: whatever the include directory holds, the directive gives
    way to the comment [// Unknown import:] with the path, and the text
    around it stays. *)
Theorem unknown_scheme_comment depth fs self (front ws path rest : text) :
  blanks ws -> path <> [] -> all inert path ->
  startswith (py "minecraft:") path = false ->
  all inert front -> all inert rest ->
  preprocess (S depth) fs (front ++ import_directive ws path ++ rest) self
  = (cleared self,
     Ok (front ++ py "// Unknown import: " ++ path ++ nl ++ rest)).
Proof.
  intros Hws Hne Hp Hs Hf Hr.
  destruct (inert_parts _ Hp) as (Hp1 & Hp2 & Hp3 & Hp4).
  destruct (inert_parts _ Hf) as (Hf1 & _ & Hf3 & Hf4).
  destruct (inert_parts _ Hr) as (Hr1 & _ & Hr3 & Hr4).
  destruct (blanks_parts _ (proj2 Hws)) as (Hw1 & _).
  assert (Hv : occurs version_re rest = false)
    by (apply (absent_clean _ _ _ needs_hash_version Hr1)).
  rewrite preprocess_later, erase_clean.
  2:{ now rewrite version_absent, version_skips_import. }
  rewrite (later_passes_from _ _ _ _ (cleared self)
             (front ++ (py "// Unknown import: " ++ path ++ nl) ++ rest)).
  - rewrite <- !app_assoc; apply tail_passes_clean; not_in.
  - apply (import_pass_at _ _ _ _ _ _ _ (cleared self)); auto.
    + unfold replace_import; cbn [group1 nth]; now rewrite Hs.
    + apply re_sub_clean.
      assert (Hn : needs import_re "#") by (exists (py "#moj_import"); simpl; auto).
      exact (absent_clean _ _ _ Hn Hr1).
Qed.

Lemma unknown_scheme_comment_witness :
  blanks (py " ") /\ all inert (py "fog.glsl") /\
  all inert (py "
void main{}") /\
  preprocess 1 cycle
    (py "// fog
" ++ import_directive (py " ") (py "fog.glsl") ++ py "
void main{}") (new_preprocessor (py "include"))
  = (new_preprocessor (py "include"),
     Ok (py "// fog
// Unknown import: fog.glsl

void main{}")).
Proof.
  assert (Hb : blanks (py " ")) by (split; [discriminate | repeat constructor]).
  assert (Hp : all inert (py "fog.glsl")) by (repeat constructor).
  assert (Hr : all inert (py "
void main{}")) by (repeat constructor).
  split; [exact Hb|]; split; [exact Hp|]; split; [exact Hr|].
  apply (unknown_scheme_comment 0 cycle (new_preprocessor (py "include"))
           (py "// fog
") (py " ") (py "fog.glsl") (py "
void main{}") Hb); auto; try discriminate; repeat constructor.
Defined.

(** X6. An import of a file that can be read gives way to the comment
    [// Import:] with the path, the text of the file as [preprocess]
    returns it, and a line break; the text around the directive stays,
    and the path is not in the include set afterwards. *)
Theorem readable_import_spliced depth fs self
    (front ws name content rest : text) :
  blanks ws -> all inert name ->
  ~ In "#"%char front -> ~ In "#"%char rest ->
  lookup fs (resolve fs self (py "minecraft:" ++ name)) = Readable content ->
  directive_free content = true ->
  settled (front ++ py "// Import: minecraft:" ++ name ++ nl ++ content ++ nl
           ++ rest) = true ->
  preprocess (S (S depth)) fs
    (front ++ import_directive ws (py "minecraft:" ++ name) ++ rest) self
  = (cleared self,
     Ok (front ++ py "// Import: minecraft:" ++ name ++ nl ++ content ++ nl
           ++ rest)).
Proof.
  intros Hws Hn Hf Hr Hl Hc Hs.
  destruct (inert_parts _ Hn) as (Hn1 & Hn2 & _).
  destruct (blanks_parts _ (proj2 Hws)) as (Hw1 & _).
  apply directive_free_clean in Hc; destruct Hc as (Hc1 & Hc2 & Hc3 & Hc4 & Hc5).
  unfold settled in Hs; rewrite !andb_true_iff, !negb_true_iff in Hs.
  destruct Hs as [[Hs1 Hs2] Hs3].
  assert (Hv : occurs version_re rest = false)
    by (apply (absent_clean _ _ _ needs_hash_version Hr)).
  rewrite preprocess_later, erase_clean.
  2:{ rewrite version_absent, version_skips_import; auto; not_in. }
  rewrite (later_passes_from _ _ _ _ (cleared self)
             (front ++ (py "// Import: minecraft:" ++ name ++ nl ++ content ++ nl)
              ++ rest)).
  - rewrite <- !app_assoc; now apply tail_passes_free.
  - apply (import_pass_at _ _ _ _ _ _ _ (cleared self)); auto;
      try discriminate.
    + constructor; [reflexivity|]. repeat (constructor; [reflexivity|]). exact Hn2.
    + rewrite replace_import_minecraft by reflexivity.
      change (resolve fs (cleared self) ?x) with (resolve fs self x); rewrite Hl.
      rewrite preprocess_clean by assumption.
      rewrite <- !app_assoc; reflexivity.
    + apply re_sub_clean.
      assert (Hi : needs import_re "#") by (exists (py "#moj_import"); simpl; auto).
      exact (absent_clean _ _ _ Hi Hr).
Qed.

Lemma readable_import_spliced_witness :
  lookup single
    (resolve single (new_preprocessor (py "include")) (py "minecraft:" ++ py "d.glsl"))
  = Readable d_content /\
  directive_free d_content = true /\
  preprocess 2 single
    (py "// fog
" ++ import_directive (py " ") (py "minecraft:" ++ py "d.glsl") ++ py "
void main() {}") (new_preprocessor (py "include"))
  = (new_preprocessor (py "include"),
     Ok (py "// fog
// Import: minecraft:d.glsl
float fog_start;

void main() {}")).
Proof.
  split; [reflexivity|]; split; [reflexivity|].
  apply (readable_import_spliced 0 single (new_preprocessor (py "include"))
           (py "// fog
") (py " ") (py "d.glsl") d_content (py "
void main() {}")).
  - split; [discriminate | repeat constructor].
  - repeat constructor.
  - simpl; intuition discriminate.
  - simpl; intuition discriminate.
  - reflexivity.
  - reflexivity.
  - reflexivity.
Defined.

(** X7. The comment [// Already included:] is what a second import of a
    path gives when the first one found a file that could not be read:
    the path of such a file stays in the include set, no nested call
    having emptied it. *)
Theorem failed_import_marked_on_repeat depth fs self
    (ws1 ws2 name msg between rest : text) :
  blanks ws1 -> blanks ws2 -> all inert name -> all inert msg ->
  all inert between -> all inert rest ->
  lookup fs (resolve fs self (py "minecraft:" ++ name)) = Unreadable msg ->
  preprocess (S depth) fs
    (import_directive ws1 (py "minecraft:" ++ name) ++ between
     ++ import_directive ws2 (py "minecraft:" ++ name) ++ rest) self
  = (added (resolve fs self (py "minecraft:" ++ name)) (cleared self),
     Ok (py "// Error importing minecraft:" ++ name ++ py ": " ++ msg ++ nl
           ++ between
           ++ py "// Already included: minecraft:" ++ name ++ nl ++ rest)).
Proof.
  intros Hws1 Hws2 Hn Hm Hb Hr Hl.
  destruct (inert_parts _ Hn) as (Hn1 & Hn2 & Hn3 & Hn4).
  destruct (inert_parts _ Hm) as (_ & _ & Hm3 & Hm4).
  destruct (inert_parts _ Hb) as (Hb1 & _ & Hb3 & Hb4).
  destruct (inert_parts _ Hr) as (Hr1 & _ & Hr3 & Hr4).
  destruct (blanks_parts _ (proj2 Hws1)) as (Hw1 & _).
  destruct (blanks_parts _ (proj2 Hws2)) as (Hw2 & _).
  assert (Hp : all not_gt (py "minecraft:" ++ name)).
  { constructor; [reflexivity|]; repeat (constructor; [reflexivity|]).
    exact Hn2. }
  assert (Hh : ~ In "#"%char (py "minecraft:" ++ name)) by not_in.
  set (path := resolve fs self (py "minecraft:" ++ name)) in *.
  rewrite preprocess_later, erase_clean.
  2:{ rewrite version_skips_import, version_absent, version_skips_import; auto.
      apply (absent_clean _ _ _ needs_hash_version Hr1). }
  rewrite (later_passes_from _ _ _ _ (added path (cleared self))
             ((py "// Error importing minecraft:" ++ name ++ py ": " ++ msg ++ nl)
              ++ between
              ++ (py "// Already included: minecraft:" ++ name ++ nl) ++ rest)).
  - rewrite <- !app_assoc; apply tail_passes_clean; not_in.
  - apply (import_pass_at _ _ [] _ _ _ _ (added path (cleared self)) _
             (added path (cleared self))); auto; try discriminate.
    + rewrite replace_import_minecraft by reflexivity.
      change (resolve fs (cleared self) ?x) with (resolve fs self x).
      fold path; rewrite Hl; rewrite <- !app_assoc; reflexivity.
    + apply (import_pass_at _ _ _ _ _ _ _ (added path (cleared self)));
        auto; try discriminate.
      * apply replace_import_again; [reflexivity|].
        change (resolve fs (added path (cleared self)) ?x)
          with (resolve fs self x); fold path.
        cbn [added cleared included_files empty_set set_add set_mem].
        destruct (text_eq_dec path path) as [_|H];
          [|contradiction]; cbn [set_mem].
        destruct (text_eq_dec path path) as [_|H]; [reflexivity|contradiction].
      * apply re_sub_clean.
        assert (Hi : needs import_re "#") by (exists (py "#moj_import"); simpl; auto).
        exact (absent_clean _ _ _ Hi Hr1).
Qed.

Lemma failed_import_marked_on_repeat_witness :
  lookup broken
    (resolve broken (new_preprocessor (py "include")) (py "minecraft:" ++ py "sky.glsl"))
  = Unreadable (py "[Errno 13] Permission denied") /\
  preprocess 1 broken
    (import_directive (py " ") (py "minecraft:" ++ py "sky.glsl") ++ nl
     ++ import_directive (py " ") (py "minecraft:" ++ py "sky.glsl") ++ nl)
    (new_preprocessor (py "include"))
  = (instance [py "include/sky.glsl"] 0 [],
     Ok (py "// Error importing minecraft:sky.glsl: [Errno 13] Permission denied

// Already included: minecraft:sky.glsl

")).
Proof.
  split; [reflexivity|].
  apply (failed_import_marked_on_repeat 0 broken (new_preprocessor (py "include"))
           (py " ") (py " ") (py "sky.glsl") (py "[Errno 13] Permission denied")
           nl nl).
  - split; [discriminate | repeat constructor].
  - split; [discriminate | repeat constructor].
  - repeat constructor.
  - repeat constructor.
  - repeat constructor.
  - repeat constructor.
  - reflexivity.
Defined.

(** ** Blocks *)

Lemma match_block (ws1 ws2 name rest : text) :
  blanks ws1 -> blanks ws2 -> word name -> stops is_word rest ->
  match_here layout_re (block_declaration ws1 ws2 name ++ rest)
  = Some ([name], rest).
Proof.
  intros [Hw1 Hws1] [Hw2 Hws2] [Hn Hns] Hr.
  unfold block_declaration, layout_re; rewrite <- !app_assoc, match_lit.
  apply match_plus; auto; [reflexivity|].
  rewrite match_lit.
  apply match_plus; auto; [eapply stops_run; eauto using word_not_space|].
  now apply match_group.
Qed.

(** The binding pass at a block: the declaration gets the index that the
    counter shows, and the pass goes on behind the name. *)
Lemma layout_pass_at (front ws1 ws2 name rest : text) st st2 out :
  ~ In "("%char front ->
  blanks ws1 -> blanks ws2 -> word name -> stops is_word rest ->
  re_sub layout_re add_binding rest (fst (add_binding [name] st))
  = (st2, Ok out) ->
  re_sub layout_re add_binding (front ++ block_declaration ws1 ws2 name ++ rest) st
  = (st2, Ok (front ++ bound (binding_counter st) name ++ out)).
Proof.
  intros Hf Hws1 Hws2 Hn Hr E.
  rewrite re_sub_skip.
  2:{ unfold block_declaration; rewrite <- !app_assoc.
      apply (misses_front "l" (py "ayout(std140)") _ "(" front); auto.
      - simpl; intuition discriminate.
      - simpl; auto 10. }
  unfold bind at 1.
  rewrite (re_sub_hit _ _ _ _ _ opens_layout (match_block _ _ _ _ Hws1 Hws2 Hn Hr)).
  unfold bind at 1.
  change (add_binding [name] st)
    with (fst (add_binding [name] st), Ok (bound (binding_counter st) name)).
  unfold bind at 1; rewrite E; reflexivity.
Qed.

(** X8. Within one text the blocks are numbered in the order in which
    they stand: of two declarations [layout(std140) uniform NAME] the
    first gets the index that the counter shows and the second the next
    one, and the counter ends two further. *)
Theorem blocks_numbered_in_order depth fs self
    (ws1 ws2 ws3 ws4 first between second rest : text) :
  blanks ws1 -> blanks ws2 -> blanks ws3 -> blanks ws4 ->
  word first -> word second ->
  apart between -> all inert between -> stops is_word rest -> all inert rest ->
  preprocess (S depth) fs
    (block_declaration ws1 ws2 first ++ between
     ++ block_declaration ws3 ws4 second ++ rest) self
  = (moved 2 (cleared self),
     Ok (bound (binding_counter self) first ++ between
           ++ bound (binding_counter self + 1) second ++ rest)).
Proof.
  intros Hws1 Hws2 Hws3 Hws4 Ha Hb [Hne Hm] Hmi Hr Hri.
  destruct (inert_parts _ Hmi) as (Hm1 & _ & Hm3 & Hm4).
  destruct (inert_parts _ Hri) as (Hr1 & _ & Hr3 & Hr4).
  destruct (blanks_parts _ (proj2 Hws1)) as (Hw11 & Hw13 & _).
  destruct (blanks_parts _ (proj2 Hws2)) as (Hw21 & Hw23 & _).
  destruct (blanks_parts _ (proj2 Hws3)) as (Hw31 & Hw33 & _).
  destruct (blanks_parts _ (proj2 Hws4)) as (Hw41 & Hw43 & _).
  destruct (word_parts _ (proj2 Ha)) as (Ha1 & Ha3 & _).
  destruct (word_parts _ (proj2 Hb)) as (Hb1 & Hb3 & _).
  assert (Hi : needs import_re "#") by (exists (py "#moj_import"); simpl; auto).
  rewrite preprocess_later, erase_clean
    by (apply (absent_clean _ _ _ needs_hash_version);
        unfold block_declaration; not_in).
  rewrite later_passes_no_import
    by (apply (absent_clean _ _ _ Hi); unfold block_declaration; not_in).
  unfold bind at 1; rewrite re_sub_clean
    by (apply (absent_clean _ _ _ needs_semi_precision);
        unfold block_declaration; not_in).
  unfold bind at 1.
  change (block_declaration ws1 ws2 first ++ ?t)
    with ([] ++ block_declaration ws1 ws2 first ++ t).
  rewrite (layout_pass_at [] ws1 ws2 first _ (cleared self)
             (moved 2 (cleared self))
             (between ++ bound (binding_counter self + 1) second ++ rest)).
  - apply re_sub_clean, (absent_clean _ _ _ needs_semi_sampler).
    unfold bound; not_in.
  - intros [].
  - exact Hws1.
  - exact Hws2.
  - exact Ha.
  - destruct between as [|c between]; [contradiction|exact Hm].
  - rewrite (layout_pass_at between ws3 ws4 second rest _
               (moved 2 (cleared self)) rest); auto.
    rewrite re_sub_clean
      by (apply (absent_clean _ _ _ needs_paren_layout Hr4)).
    now rewrite <- (moved_0 (fst (add_binding [second] _))), !moved_S.
Qed.

Lemma blocks_numbered_in_order_witness :
  preprocess 1 (directory [])
    (block_declaration (py " ") (py " ") (py "Fog") ++ py " { vec4 c }
" ++ block_declaration (py "
") (py " ") (py "Sky") ++ py " { vec4 d }")
    (instance [] 3 [0; 1; 2])
  = (instance [] 5 [0; 1; 2; 3; 4],
     Ok (py "layout(std140, binding=3) uniform Fog { vec4 c }
layout(std140, binding=4) uniform Sky { vec4 d }")).
Proof.
  assert (Hs : blanks (py " ")) by (split; [discriminate | repeat constructor]).
  assert (Hl : blanks (py "
")) by (split; [discriminate | repeat constructor]).
  apply (blocks_numbered_in_order 0 (directory []) (instance [] 3 [0; 1; 2])
           (py " ") (py " ") (py "
") (py " ") (py "Fog") (py " { vec4 c }
") (py "Sky") (py " { vec4 d }") Hs Hs Hl Hs).
  - split; [discriminate | repeat constructor].
  - split; [discriminate | repeat constructor].
  - split; [discriminate | reflexivity].
  - repeat constructor.
  - reflexivity.
  - repeat constructor.
Defined.

(** ** Samplers and precision *)

(** A literal without [;] that is found in an identifier followed by [;]
    lies in the identifier. *)
Lemma lit_in_word l (w rest r : text) :
  ~ In ";"%char l -> lit l (w ++ ";"%char :: rest) = Some r ->
  exists r', w = l ++ r' /\ r = r' ++ ";"%char :: rest.
Proof.
  intros Hl E; destruct (lit_app_inv _ _ _ _ E) as [(r' & Hr)|(l2 & Hne & H & H2)].
  - exists r'; split; [now apply lit_Some|].
    rewrite (lit_app _ _ (";"%char :: rest) _ Hr) in E; congruence.
  - exfalso; destruct l2 as [|y l2]; [congruence|].
    cbn [lit] in H2; destruct (Ascii.eqb y ";") eqn:Ey; [|discriminate].
    apply Ascii.eqb_eq in Ey; subst y.
    apply Hl; rewrite H; apply in_or_app; right; now left.
Qed.

Lemma no_precision_in_word (w rest : text) :
  all is_word w ->
  occurs precision_re (";"%char :: rest) = false ->
  occurs precision_re (w ++ ";"%char :: rest) = false.
Proof.
  intros Hw H; induction Hw as [|c w Hc Hw IH]; [exact H|].
  rewrite <- app_comm_cons; apply occurs_step; [|exact IH].
  rewrite app_comm_cons; unfold precision_re; cbn [match_here].
  destruct (lit (py "precision") ((c :: w) ++ ";"%char :: rest)) as [r|] eqn:E;
    [|reflexivity].
  apply lit_in_word in E; [|simpl; intuition discriminate].
  destruct E as (r' & Hr & ->).
  assert (Hall : all is_word (py "precision" ++ r'))
    by (rewrite <- Hr; now constructor).
  apply Forall_app in Hall; destruct Hall as [_ Hall].
  destruct Hall as [|x r' Hx _]; [reflexivity|].
  rewrite <- app_comm_cons; now rewrite (word_not_space _ Hx).
Qed.

Lemma no_layout_in_word (w rest : text) :
  all is_word w ->
  occurs layout_re (";"%char :: rest) = false ->
  occurs layout_re (w ++ ";"%char :: rest) = false.
Proof.
  intros Hw H; induction Hw as [|c w Hc Hw IH]; [exact H|].
  rewrite <- app_comm_cons; apply occurs_step; [|exact IH].
  rewrite app_comm_cons; unfold layout_re; cbn [match_here].
  destruct (lit (py "layout(std140)") ((c :: w) ++ ";"%char :: rest))
    as [r|] eqn:E; [exfalso|reflexivity].
  apply lit_in_word in E; [|simpl; intuition discriminate].
  destruct E as (r' & Hr & _).
  assert (Hall : all is_word (c :: w)) by now constructor.
  apply (all_not_in _ _ "(" Hall); [reflexivity|].
  rewrite Hr; apply in_or_app; left; simpl; auto 10.
Qed.

Lemma match_sampler (ws1 ws2 name rest : text) :
  blanks ws1 -> blanks ws2 -> word name ->
  match_here sampler_re (sampler_declaration ws1 ws2 name ++ rest)
  = Some ([name], rest).
Proof.
  intros [Hw1 Hws1] [Hw2 Hws2] [Hn Hns].
  unfold sampler_declaration, sampler_re; rewrite <- !app_assoc, match_lit.
  apply match_plus; auto; [reflexivity|].
  rewrite match_lit.
  apply match_plus; auto; [eapply stops_run; eauto using word_not_space|].
  apply match_group; auto; reflexivity.
Qed.

Lemma match_precision (ws1 qualifier ws2 type rest : text) :
  blanks ws1 -> word qualifier -> blanks ws2 -> word type ->
  match_here precision_re (precision_declaration ws1 qualifier ws2 type ++ rest)
  = Some ([], rest).
Proof.
  intros [Hw1 Hws1] [Hq Hqs] [Hw2 Hws2] [Ht Hts].
  unfold precision_declaration, precision_re; rewrite <- !app_assoc, match_lit.
  apply match_plus; auto; [eapply stops_run; eauto using word_not_space|].
  apply match_plus; auto; [eapply stops_run; eauto using space_not_word|].
  apply match_plus; auto; [eapply stops_run; eauto using word_not_space|].
  apply match_plus; auto; reflexivity.
Qed.

Ltac part_of_literal H :=
  cbn [py list_ascii_of_string] in H;
  match type of H with
  | _ = ?l1 ++ ?l2 =>
      destruct l1 as [|? l1]; [contradiction|];
      cbn [List.app] in H; injection H as _ H;
      repeat (destruct l1 as [|? l1]; cbn [List.app] in H;
              [subst l2; first [reflexivity | contradiction]
              |first [discriminate H | injection H as _ H]])
  end.

(** No part of [#moj_import] ends where a precision statement begins. *)
Lemma import_not_into_precision (tail : text) l1 l2 :
  py "#moj_import" = l1 ++ l2 -> l1 <> [] -> l2 <> [] ->
  lit l2 (py "precision" ++ tail) = None.
Proof. intros H H1 H2; part_of_literal H. Qed.

(** No part of [layout(std140)] ends where a sampler begins. *)
Lemma layout_not_into_uniform (tail : text) l1 l2 :
  py "layout(std140)" = l1 ++ l2 -> l1 <> [] -> l2 <> [] ->
  lit l2 (py "uniform" ++ tail) = None.
Proof. intros H H1 H2; part_of_literal H. Qed.

(** In front of a text that begins with [u], the sampler pattern finds
    only what begins with [uniform], blanks and [sampler2D] there. *)
Lemma misses_sampler (front other tail : text) :
  occurs sampler_token (front ++ other) = false ->
  misses sampler_re front ("u"%char :: tail) = true.
Proof.
  induction front as [|x front IH]; intros Ho; [reflexivity|].
  rewrite <- app_comm_cons in Ho; apply occurs_cons in Ho.
  destruct Ho as [Hx Ho]; cbn [misses].
  destruct (match_here sampler_re ((x :: front) ++ "u"%char :: tail))
    as [[gs r]|] eqn:E; [exfalso|exact (IH Ho)].
  unfold sampler_re in E; cbn [match_here] in E.
  destruct (lit (py "uniform") ((x :: front) ++ "u"%char :: tail))
    as [t|] eqn:L; [|discriminate].
  pose proof L as L'.
  apply lit_app_inv in L'; destruct L' as [(r' & Hr)|(l2 & Hne & Hl & Hl2)].
  - rewrite (lit_app _ _ ("u"%char :: tail) _ Hr) in L.
    inversion L; subst t; clear L.
    destruct r' as [|c r']; [discriminate E|].
    rewrite <- app_comm_cons in E.
    destruct (is_space c) eqn:Ec; [|discriminate].
    apply plus_inv in E; destruct E as (more & rest2 & Hm & Hs & E).
    cbn [match_here] in E.
    destruct (lit (py "sampler2D") rest2) as [t2|] eqn:L2; [|discriminate].
    apply app_eq_app in Hm; destruct Hm as (l & [[-> ->]|[-> Hu]]).
    + apply lit_app_inv in L2.
      destruct L2 as [(r3 & Hr3)|(l3 & Hne & Hl & Hl3)].
      * apply lit_Some in Hr, Hr3; subst l.
        rewrite (app_comm_cons front other x), Hr in Hx.
        unfold sampler_token in Hx.
        rewrite <- !app_assoc, match_lit in Hx.
        rewrite (app_comm_cons _ _ c), <- !app_assoc in Hx.
        rewrite (match_plus is_space _ (c :: more) _ ([], r3 ++ other)) in Hx;
          [discriminate|discriminate|now constructor|reflexivity|].
        now rewrite match_lit.
      * destruct l3 as [|y l3]; [congruence|].
        cbn [lit] in Hl3; destruct (Ascii.eqb y "u") eqn:Ey; [|discriminate].
        apply Ascii.eqb_eq in Ey; subst y.
        assert (Hin : In "u"%char (py "sampler2D"))
          by (rewrite Hl; apply in_or_app; right; now left).
        simpl in Hin; intuition discriminate.
    + destruct l as [|y l].
      * cbn [List.app] in Hu; subst rest2; discriminate L2.
      * inversion Hu; subst y.
        apply Forall_app in Hs; destruct Hs as [_ Hs].
        inversion Hs; discriminate.
  - destruct l2 as [|y l2]; [congruence|].
    cbn [lit] in Hl2; destruct (Ascii.eqb y "u") eqn:Ey; [|discriminate].
    apply Ascii.eqb_eq in Ey; subst y.
    rewrite <- app_comm_cons in Hl; inversion Hl as [[Hx' Hl']].
    assert (Hin : In "u"%char (front ++ "u"%char :: l2))
      by (apply in_or_app; right; now left).
    rewrite <- Hl' in Hin; simpl in Hin; intuition discriminate.
Qed.

(** X9. A declaration [uniform sampler2D NAME;] gives way to the comment
    [// SAMPLER: NAME - requires texture+sampler binding]; the text in
    front of it stays, and so does the text behind it, which follows the
    comment with no line break between. *)
Theorem sampler_declaration_noted depth fs self
    (front ws1 ws2 name rest : text) :
  blanks ws1 -> blanks ws2 -> word name ->
  plain (front ++ rest) = true ->
  contains (py "layout(std140)") front = false ->
  preprocess (S depth) fs (front ++ sampler_declaration ws1 ws2 name ++ rest)
    self
  = (cleared self,
     Ok (front ++ py "// SAMPLER: " ++ name
           ++ py " - requires texture+sampler binding" ++ rest)).
Proof.
  intros Hws1 Hws2 Hn Hr Hc.
  assert (Htok : occurs version_token (front ++ rest) = false /\
                 occurs moj_import_token (front ++ rest) = false /\
                 occurs precision_token (front ++ rest) = false /\
                 occurs sampler_token (front ++ rest) = false).
  { unfold plain in Hr; rewrite !andb_true_iff, !negb_true_iff in Hr; tauto. }
  destruct Htok as (Tv & Ti & Tp & Ts).
  apply plain_clean in Hr; destruct Hr as (Hv & Hi & Hp & Hl & Hs).
  apply occurs_app_r in Hv, Hi, Hp, Hl, Hs.
  destruct (blanks_parts _ (proj2 Hws1)) as (Hw11 & _).
  destruct (blanks_parts _ (proj2 Hws2)) as (Hw21 & _).
  destruct (word_parts _ (proj2 Hn)) as (Hn1 & _).
  set (decl := sampler_declaration ws1 ws2 name).
  assert (Hh : ~ In "#"%char decl)
    by (unfold decl, sampler_declaration; not_in).
  assert (Hd : decl ++ rest
               = "u"%char :: py "niform"
                   ++ (ws1 ++ py "sampler2D" ++ ws2 ++ name ++ py ";") ++ rest)
    by (unfold decl, sampler_declaration; now rewrite <- !app_assoc).
  rewrite preprocess_later, erase_clean.
  2:{ rewrite occurs_misses.
      - now rewrite version_absent.
      - rewrite Hd.
        apply (misses_foreign "#" (py "version") _ "u" front rest);
          [simpl; intuition discriminate | exact Tv]. }
  rewrite later_passes_no_import.
  2:{ rewrite occurs_misses.
      - now rewrite import_absent.
      - rewrite Hd.
        apply (misses_foreign "#" (py "moj_import") _ "u" front rest);
          [simpl; intuition discriminate | exact Ti]. }
  unfold bind at 1; rewrite re_sub_clean.
  2:{ rewrite occurs_misses.
      - unfold decl, sampler_declaration; walk.
        apply (occurs_skip _ _ _ is_space); [exact (proj2 Hws1) | reflexivity |].
        walk.
        apply (occurs_skip _ _ _ is_space); [exact (proj2 Hws2) | reflexivity |].
        apply no_precision_in_word; [exact (proj2 Hn)|].
        now apply occurs_step.
      - rewrite Hd.
        apply (misses_foreign "p" (py "recision") _ "u" front rest);
          [simpl; intuition discriminate | exact Tp]. }
  unfold bind at 1; rewrite re_sub_clean.
  2:{ rewrite occurs_misses.
      - unfold decl, sampler_declaration; walk.
        apply (occurs_skip _ _ _ is_space); [exact (proj2 Hws1) | reflexivity |].
        walk.
        apply (occurs_skip _ _ _ is_space); [exact (proj2 Hws2) | reflexivity |].
        apply no_layout_in_word; [exact (proj2 Hn)|].
        now apply occurs_step.
      - rewrite Hd.
        apply (misses_split "l" (py "ayout(std140)") _ front []).
        + intros l1 l2; apply (layout_not_into_uniform _ l1 l2).
        + rewrite app_nil_r; exact Hc. }
  rewrite re_sub_skip by (rewrite Hd; exact (misses_sampler _ _ _ Ts)).
  assert (Ho : opens sampler_re) by exact I.
  unfold bind at 1, decl.
  rewrite (re_sub_hit _ _ _ _ _ Ho (match_sampler _ _ _ rest Hws1 Hws2 Hn)).
  unfold bind at 1; cbn [ret]; unfold bind at 1.
  rewrite (re_sub_clean _ _ _ _ Hs); unfold ret, sampler_note, group1.
  cbn [nth]; now rewrite <- !app_assoc.
Qed.

Lemma sampler_declaration_noted_witness :
  plain (py "in vec2 uv;
" ++ py " // the atlas
void main() {}") = true /\
  preprocess 1 (directory [])
    (py "in vec2 uv;
" ++ sampler_declaration (py " ") (py " ") (py "Sampler0") ++ py " // the atlas
void main() {}") (new_preprocessor (py "include"))
  = (new_preprocessor (py "include"),
     Ok (py "in vec2 uv;
// SAMPLER: Sampler0 - requires texture+sampler binding // the atlas
void main() {}")).
Proof.
  split; [reflexivity|].
  apply (sampler_declaration_noted 0 (directory [])
           (new_preprocessor (py "include")) (py "in vec2 uv;
") (py " ") (py " ") (py "Sampler0")
           (py " // the atlas
void main() {}")).
  - split; [discriminate | repeat constructor].
  - split; [discriminate | repeat constructor].
  - split; [discriminate | repeat constructor].
  - reflexivity.
  - reflexivity.
Defined.

(** X10. A statement [precision QUALIFIER TYPE;] is taken out, with its
    semicolon and nothing more: the output is the text in front of it
    and the text that follows it. *)
Theorem precision_statement_removed depth fs self
    (front ws1 qualifier ws2 type rest : text) :
  blanks ws1 -> word qualifier -> blanks ws2 -> word type ->
  plain (front ++ rest) = true ->
  preprocess (S depth) fs
    (front ++ precision_declaration ws1 qualifier ws2 type ++ rest) self
  = (cleared self, Ok (front ++ rest)).
Proof.
  intros Hws1 Hq Hws2 Ht Hr.
  assert (Htok : occurs version_token (front ++ rest) = false /\
                 occurs moj_import_token (front ++ rest) = false /\
                 occurs precision_token (front ++ rest) = false).
  { unfold plain in Hr; rewrite !andb_true_iff, !negb_true_iff in Hr; tauto. }
  destruct Htok as (Tv & Ti & Tp).
  apply plain_clean in Hr; destruct Hr as (Hv & Hi & Hp & Hl & Hs).
  destruct (blanks_parts _ (proj2 Hws1)) as (Hw11 & _).
  destruct (blanks_parts _ (proj2 Hws2)) as (Hw21 & _).
  destruct (word_parts _ (proj2 Hq)) as (Hq1 & _).
  destruct (word_parts _ (proj2 Ht)) as (Ht1 & _).
  set (decl := precision_declaration ws1 qualifier ws2 type).
  assert (Hh : ~ In "#"%char decl)
    by (unfold decl, precision_declaration; not_in).
  assert (Hd : decl ++ rest
               = "p"%char :: py "recision"
                   ++ (ws1 ++ qualifier ++ ws2 ++ type ++ py ";") ++ rest)
    by (unfold decl, precision_declaration; now rewrite <- !app_assoc).
  rewrite preprocess_later, erase_clean.
  2:{ rewrite occurs_misses.
      - rewrite version_absent by exact Hh.
        exact (occurs_app_r _ _ _ Hv).
      - rewrite Hd.
        apply (misses_foreign "#" (py "version") _ "p" front rest);
          [simpl; intuition discriminate | exact Tv]. }
  rewrite later_passes_no_import.
  2:{ rewrite occurs_misses.
      - rewrite import_absent by exact Hh.
        exact (occurs_app_r _ _ _ Hi).
      - rewrite Hd.
        apply (misses_split "#" (py "moj_import") _ front rest);
          [intros l1 l2; apply (import_not_into_precision _ l1 l2) | exact Ti]. }
  unfold bind at 1; rewrite re_sub_const.
  fold (erase precision_re (front ++ decl ++ rest)).
  rewrite erase_misses
    by (rewrite Hd;
        apply (misses_foreign "p" (py "recision") _ "p" front rest);
        [simpl; intuition discriminate | exact Tp]).
  assert (Ho : opens precision_re) by exact I.
  unfold decl.
  rewrite (erase_hit _ _ _ _ Ho (match_precision _ _ _ _ rest Hws1 Hq Hws2 Ht)).
  rewrite (erase_clean _ _ (occurs_app_r _ _ _ Hp)); unfold bind.
  now rewrite (re_sub_clean _ _ _ _ Hl), (re_sub_clean _ _ _ _ Hs).
Qed.

Lemma precision_statement_removed_witness :
  plain (py "// fog
" ++ py "
void main() {}") = true /\
  preprocess 1 (directory [])
    (py "// fog
" ++ precision_declaration (py " ") (py "mediump") (py " ") (py "float") ++ py "
void main() {}") (new_preprocessor (py "include"))
  = (new_preprocessor (py "include"), Ok (py "// fog
" ++ py "
void main() {}")).
Proof.
  split; [reflexivity|].
  apply (precision_statement_removed 0 (directory [])
           (new_preprocessor (py "include")) (py "// fog
") (py " ") (py "mediump") (py " ")
           (py "float") (py "
void main() {}")).
  - split; [discriminate | repeat constructor].
  - split; [discriminate | repeat constructor].
  - split; [discriminate | repeat constructor].
  - split; [discriminate | repeat constructor].
  - reflexivity.
Defined.

(** ** The names of the files *)

Lemma text_eqb_eq (a b : text) : text_eqb a b = true <-> a = b.
Proof.
  revert b; induction a as [|x a IH]; intros [|y b]; simpl.
  - split; reflexivity.
  - split; discriminate.
  - split; discriminate.
  - rewrite andb_true_iff, Ascii.eqb_eq, IH; split.
    + intros [-> ->]; reflexivity.
    + intros H; inversion H; auto.
Qed.

Lemma text_eqb_refl (a : text) : text_eqb a a = true.
Proof. now apply text_eqb_eq. Qed.

Lemma rfind_dot_none (e : text) : ~ In "."%char e -> rfind_dot e = None.
Proof.
  induction e as [|c e IH]; intros H; [reflexivity|]; cbn [rfind_dot].
  rewrite IH by (intros Hin; apply H; now right).
  destruct (Ascii.eqb c ".") eqn:E; [|reflexivity].
  apply Ascii.eqb_eq in E; subst c; exfalso; apply H; now left.
Qed.

Lemma rfind_dot_last (s e : text) :
  ~ In "."%char e -> rfind_dot (s ++ "."%char :: e) = Some (List.length s).
Proof.
  intros H; induction s as [|c s IH]; cbn [rfind_dot List.app List.length].
  - now rewrite rfind_dot_none.
  - now rewrite IH.
Qed.

(** Where [rfind] finds the dot, the name divides into what stands in
    front of it and an extension without a dot. *)
Lemma rfind_dot_Some (name : text) i :
  rfind_dot name = Some i ->
  exists s e,
    name = s ++ "."%char :: e /\ ~ In "."%char e /\ List.length s = i.
Proof.
  revert i; induction name as [|c name IH]; intros i; cbn [rfind_dot];
    [discriminate|].
  destruct (rfind_dot name) as [j|] eqn:E.
  - intros H; inversion H; subst i.
    destruct (IH j eq_refl) as (s & e & -> & He & Hs).
    exists (c :: s), e; repeat split; auto; simpl; now rewrite Hs.
  - destruct (Ascii.eqb c ".") eqn:Ec; [|discriminate].
    apply Ascii.eqb_eq in Ec; subst c.
    intros H; inversion H; subst i.
    exists [], name; repeat split; auto.
    intros Hin; clear IH H; induction name as [|d name IH];
      [destruct Hin|].
    cbn [rfind_dot] in E; destruct (rfind_dot name); [discriminate|].
    destruct (Ascii.eqb d ".") eqn:Ed; [discriminate|].
    destruct Hin as [->|Hin]; [discriminate Ed|auto].
Qed.

Lemma skipn_length_app (s t : text) : skipn (List.length s) (s ++ t) = t.
Proof. induction s; simpl; auto. Qed.

Lemma firstn_length_app (s t : text) : firstn (List.length s) (s ++ t) = s.
Proof. induction s; simpl; congruence. Qed.

(** A name with something in front of an extension of some letters. *)
Lemma splits_extension (s e : text) :
  s <> [] -> e <> [] -> ~ In "."%char e ->
  splits (s ++ "."%char :: e) = Some (List.length s).
Proof.
  intros Hs He Hd; unfold splits; rewrite rfind_dot_last by exact Hd.
  destruct s as [|c s]; [contradiction|]; destruct e as [|d e]; [contradiction|].
  replace (Nat.ltb (List.length (c :: s))
             (List.length ((c :: s) ++ "."%char :: d :: e) - 1)) with true;
    [reflexivity|].
  symmetry; apply Nat.ltb_lt; rewrite length_app; simpl; lia.
Qed.

Lemma suffix_extension (name e : text) :
  e <> [] -> ~ In "."%char e ->
  suffix name = "."%char :: e <->
  exists s, s <> [] /\ name = s ++ "."%char :: e.
Proof.
  intros He Hd; split.
  - unfold suffix, splits.
    destruct (rfind_dot name) as [i|] eqn:E; [|discriminate].
    destruct (Nat.ltb 0 i) eqn:E0; [|discriminate].
    destruct (Nat.ltb i (List.length name - 1)); [|discriminate].
    cbn [andb]; intros H.
    apply rfind_dot_Some in E; destruct E as (s & e' & -> & _ & Hs).
    subst i; rewrite skipn_length_app in H.
    exists s; split; [|now rewrite H].
    apply Nat.ltb_lt in E0; destruct s; [simpl in E0; lia|discriminate].
  - intros (s & Hs & ->); unfold suffix.
    rewrite splits_extension by assumption.
    apply skipn_length_app.
Qed.

Lemma stem_extension (s e : text) :
  s <> [] -> e <> [] -> ~ In "."%char e -> stem (s ++ "."%char :: e) = s.
Proof.
  intros Hs He Hd; unfold stem; rewrite splits_extension by assumption.
  apply firstn_length_app.
Qed.

Lemma no_dot_vsh : ~ In "."%char (py "vsh").
Proof. simpl; intuition discriminate. Qed.

Lemma no_dot_fsh : ~ In "."%char (py "fsh").
Proof. simpl; intuition discriminate. Qed.

(** The files that [process_shader] converts, by their names. *)
Lemma shader_stage_Some (name stage : text) :
  shader_stage name = Some stage <->
  exists s,
    s <> [] /\
    (name = s ++ VERTEX_EXT /\ stage = py "vertex" \/
     name = s ++ FRAGMENT_EXT /\ stage = py "fragment").
Proof.
  unfold shader_stage; split.
  - destruct (text_eqb (suffix name) VERTEX_EXT) eqn:Ev.
    + apply text_eqb_eq in Ev.
      apply (suffix_extension name (py "vsh")) in Ev;
        [|discriminate|exact no_dot_vsh].
      destruct Ev as (s & Hs & ->); intros H; inversion H; eauto.
    + destruct (text_eqb (suffix name) FRAGMENT_EXT) eqn:Ef; [|discriminate].
      apply text_eqb_eq in Ef.
      apply (suffix_extension name (py "fsh")) in Ef;
        [|discriminate|exact no_dot_fsh].
      destruct Ef as (s & Hs & ->); intros H; inversion H; eauto.
  - intros (s & Hs & [[-> ->]|[-> ->]]).
    + replace (suffix (s ++ VERTEX_EXT)) with VERTEX_EXT; [reflexivity|].
      symmetry; apply (suffix_extension _ (py "vsh"));
        [discriminate|exact no_dot_vsh|eauto].
    + replace (suffix (s ++ FRAGMENT_EXT)) with FRAGMENT_EXT; [reflexivity|].
      symmetry; apply (suffix_extension _ (py "fsh"));
        [discriminate|exact no_dot_fsh|eauto].
Qed.

(** X11. [process_shader] takes a file for a vertex shader when its name
    is a non-empty stem and [.vsh], for a fragment shader when it is a
    non-empty stem and [.fsh], and skips every other file; so it skips
    a file named [.vsh]. *)
Theorem stage_by_extension (name : text) :
  (shader_stage name = Some (py "vertex") <->
   exists s, s <> [] /\ name = s ++ py ".vsh") /\
  (shader_stage name = Some (py "fragment") <->
   exists s, s <> [] /\ name = s ++ py ".fsh") /\
  (shader_stage name = None <->
   forall s, s <> [] -> name <> s ++ py ".vsh" /\ name <> s ++ py ".fsh") /\
  shader_stage (py ".vsh") = None.
Proof.
  split; [|split; [|split; [|reflexivity]]].
  - split.
    + intros H; apply shader_stage_Some in H.
      destruct H as (s & Hs & [[-> _]|[_ H]]); [eauto|discriminate].
    + intros (s & Hs & ->); apply shader_stage_Some; eauto.
  - split.
    + intros H; apply shader_stage_Some in H.
      destruct H as (s & Hs & [[_ H]|[-> _]]); [discriminate|eauto].
    + intros (s & Hs & ->); apply shader_stage_Some; eauto.
  - split.
    + intros H s Hs; split; intros ->.
      * assert (E : shader_stage (s ++ py ".vsh") = Some (py "vertex"))
          by (apply shader_stage_Some; eauto).
        congruence.
      * assert (E : shader_stage (s ++ py ".fsh") = Some (py "fragment"))
          by (apply shader_stage_Some; eauto).
        congruence.
    + intros H; destruct (shader_stage name) as [stage|] eqn:E; [|reflexivity].
      apply shader_stage_Some in E.
      destruct E as (s & Hs & [[-> _]|[-> _]]); destruct (H s Hs) as [H1 H2];
        exfalso; [apply H1|apply H2]; reflexivity.
Qed.

Lemma app_same_length (s1 s2 t1 t2 : text) :
  List.length t1 = List.length t2 -> s1 ++ t1 = s2 ++ t2 ->
  s1 = s2 /\ t1 = t2.
Proof.
  intros Hl H.
  assert (Hs : List.length s1 = List.length s2).
  { apply (f_equal (@List.length ascii)) in H; rewrite !length_app in H; lia. }
  revert s2 H Hs; induction s1 as [|c s1 IH]; intros [|d s2] H Hs;
    try discriminate; [auto|].
  inversion H; subst; destruct (IH s2) as [-> ->]; auto.
Qed.

Lemma output_name_vertex (s : text) :
  s <> [] -> output_name (s ++ VERTEX_EXT) (py "vertex") = s ++ py ".vert.wgsl".
Proof.
  intros Hs; unfold output_name.
  change (s ++ VERTEX_EXT) with (s ++ "."%char :: py "vsh").
  now rewrite (stem_extension s (py "vsh") Hs) by (discriminate || exact no_dot_vsh).
Qed.

Lemma output_name_fragment (s : text) :
  s <> [] ->
  output_name (s ++ FRAGMENT_EXT) (py "fragment") = s ++ py ".frag.wgsl".
Proof.
  intros Hs; unfold output_name.
  change (s ++ FRAGMENT_EXT) with (s ++ "."%char :: py "fsh").
  now rewrite (stem_extension s (py "fsh") Hs) by (discriminate || exact no_dot_fsh).
Qed.

(** Two files that are converted have the same output name only when
    they have the same name. *)
Lemma output_name_inj (name1 name2 stage1 stage2 : text) :
  shader_stage name1 = Some stage1 -> shader_stage name2 = Some stage2 ->
  output_name name1 stage1 = output_name name2 stage2 -> name1 = name2.
Proof.
  intros H1 H2; apply shader_stage_Some in H1, H2.
  destruct H1 as (s1 & Hs1 & [[-> ->]|[-> ->]]);
    destruct H2 as (s2 & Hs2 & [[-> ->]|[-> ->]]);
    rewrite ?output_name_vertex, ?output_name_fragment by assumption;
    intros H; apply app_same_length in H; try reflexivity;
    destruct H as [-> H]; try reflexivity; discriminate H.
Qed.

Lemma process_shader_writes m depth fs (input_file : shader) st st' files :
  process_shader m depth fs input_file st = (st', Ok files) ->
  files = [] \/
  exists stage wgsl,
    shader_stage (fst input_file) = Some stage /\
    files = [(output_name (fst input_file) stage, wgsl)].
Proof.
  destruct input_file as [name source]; unfold process_shader; cbn [fst].
  destruct (shader_stage name) as [stage|];
    [|intros H; inversion H; now left].
  unfold bind.
  destruct (preprocess depth fs source st) as [st1 [preprocessed|e|]];
    [|discriminate|discriminate].
  destruct (convert_glsl_to_wgsl m preprocessed stage) as [wgsl|msg];
    [|intros H; inversion H; now left].
  destruct (can_write m _); intros H; inversion H; [right|now left].
  exists stage, wgsl; auto.
Qed.

Lemma process_all_names m depth fs shaders st st' files name :
  process_all m depth fs shaders st = (st', Ok files) ->
  In name (map fst files) ->
  exists input_file stage,
    In input_file shaders /\ shader_stage (fst input_file) = Some stage /\
    name = output_name (fst input_file) stage.
Proof.
  revert st files; induction shaders as [|input_file more IH];
    intros st files; cbn [process_all].
  - intros H; inversion H; intros [].
  - unfold bind at 1.
    destruct (process_shader m depth fs input_file st) as [st1 [first|e|]] eqn:E1;
      [|discriminate|discriminate].
    unfold bind at 1.
    destruct (process_all m depth fs more st1) as [st2 [others|e|]] eqn:E2;
      [|discriminate|discriminate].
    intros H; inversion H; subst; clear H.
    rewrite map_app; intros Hin; apply in_app_or in Hin.
    destruct Hin as [Hin|Hin].
    + apply process_shader_writes in E1.
      destruct E1 as [->|(stage & wgsl & Hs & ->)]; [destruct Hin|].
      destruct Hin as [<-|[]]; exists input_file, stage; simpl; auto.
    + destruct (IH _ _ E2 Hin) as (f & stage & Hf & Hs & Hn).
      exists f, stage; simpl; auto.
Qed.

Lemma process_all_once m depth fs shaders st st' files :
  NoDup (map fst shaders) ->
  process_all m depth fs shaders st = (st', Ok files) ->
  NoDup (map fst files).
Proof.
  revert st files; induction shaders as [|input_file more IH];
    intros st files Hnd; cbn [process_all].
  - intros H; inversion H; constructor.
  - unfold bind at 1.
    destruct (process_shader m depth fs input_file st) as [st1 [first|e|]] eqn:E1;
      [|discriminate|discriminate].
    unfold bind at 1.
    destruct (process_all m depth fs more st1) as [st2 [others|e|]] eqn:E2;
      [|discriminate|discriminate].
    intros H; inversion H; subst; clear H.
    cbn [map] in Hnd; inversion Hnd as [|x l Hx Hnd']; subst.
    apply process_shader_writes in E1.
    destruct E1 as [->|(stage & wgsl & Hs & ->)]; [exact (IH _ _ Hnd' E2)|].
    cbn [List.app map fst]; constructor; [|exact (IH _ _ Hnd' E2)].
    intros Hin.
    destruct (process_all_names _ _ _ _ _ _ _ _ E2 Hin)
      as (f & stage' & Hf & Hs' & Hn).
    apply Hx; rewrite (output_name_inj _ _ _ _ Hs Hs' Hn).
    now apply in_map.
Qed.

Lemma process_all_app m depth fs (a b : list shader) st :
  process_all m depth fs (a ++ b) st
  = (first <- process_all m depth fs a ;;
     others <- process_all m depth fs b ;;
     ret (first ++ others)) st.
Proof.
  revert st; induction a as [|input_file a IH]; intros st;
    cbn [process_all List.app].
  - unfold bind, ret.
    destruct (process_all m depth fs b st) as [st1 [others|e|]]; reflexivity.
  - unfold bind at 1 3 4.
    destruct (process_shader m depth fs input_file st) as [st1 [first|e|]];
      [|reflexivity|reflexivity].
    unfold bind at 1; rewrite IH; unfold bind, ret.
    destruct (process_all m depth fs a st1) as [st2 [x|e|]]; [|reflexivity|reflexivity].
    destruct (process_all m depth fs b st2) as [st3 [y|e|]]; [|reflexivity|reflexivity].
    now rewrite app_assoc.
Qed.

(** X12. A run of [main] that comes to its end has written no output
    file twice: the files of the core directory have different names,
    and so have the files written for them, [STEM.vert.wgsl] for
    [STEM.vsh] and [STEM.frag.wgsl] for [STEM.fsh]. *)
Theorem main_writes_each_file_once m depth fs dir vsh fsh self' files :
  NoDup (map fst (vsh ++ fsh)) ->
  main m depth fs dir (Some (vsh, fsh)) = (self', Ok files) ->
  NoDup (map fst files).
Proof.
  intros Hnd H; unfold main in H; rewrite <- process_all_app in H.
  exact (process_all_once _ _ _ _ _ _ _ Hnd H).
Qed.

Lemma main_writes_each_file_once_witness :
  main {| naga := fun _ _ => Rejected (py "no naga");
          can_write := fun _ => true |} 1 (directory []) (py "include")
    (Some ([(py "fog.vsh", py "void main() {}")],
           [(py "fog.fsh", py "void main() {}")]))
  = (new_preprocessor (py "include"),
     Ok [(py "fog.vert.wgsl", py "// Conversion failed: no naga
void main() {}");
           (py "fog.frag.wgsl", py "// Conversion failed: no naga
void main() {}")]) /\
  NoDup [py "fog.vert.wgsl"; py "fog.frag.wgsl"].
Proof.
  split; [reflexivity|].
  apply (main_writes_each_file_once
           {| naga := fun _ _ => Rejected (py "no naga");
              can_write := fun _ => true |} 1 (directory []) (py "include")
           [(py "fog.vsh", py "void main() {}")]
           [(py "fog.fsh", py "void main() {}")]
           (new_preprocessor (py "include"))
           [(py "fog.vert.wgsl", py "// Conversion failed: no naga
void main() {}");
            (py "fog.frag.wgsl", py "// Conversion failed: no naga
void main() {}")]).
  - repeat constructor; simpl; intuition discriminate.
  - reflexivity.
Defined.

(** X13. The two tables of stages agree: for every file that
    [process_shader] converts, the stage that [convert_glsl_to_wgsl]
    hands to naga is the one in the name of the output file, [vert] or
    [frag]. *)
Theorem naga_stage_in_output_name (name stage : text) :
  shader_stage name = Some stage ->
  naga_stage stage = stage_suffix stage /\
  (stage_suffix stage = py "vert" \/ stage_suffix stage = py "frag").
Proof.
  intros H; apply shader_stage_Some in H.
  destruct H as (s & _ & [[_ ->]|[_ ->]]); split; auto.
Qed.

Lemma naga_stage_in_output_name_witness :
  shader_stage (py "terrain.fsh") = Some (py "fragment") /\
  naga_stage (py "fragment") = py "frag".
Proof.
  split; [reflexivity|].
  destruct (naga_stage_in_output_name (py "terrain.fsh") (py "fragment") eq_refl)
    as [E _].
  rewrite E; reflexivity.
Defined.

(** ** A run over files without imports *)





(** ** A conversion that fails *)

(** X16. A failure of naga does not stop [process_shader] and does not
    lose the shader: when the temporary file and the output file can be
    written, a file that is converted gets its output file, and this
    holds what naga wrote or, after a first part that begins with
    [// Conversion ], the preprocessed source as it is. *)
Theorem failed_conversion_keeps_source m depth fs (name source stage : text)
    self self' (out : text) :
  shader_stage name = Some stage ->
  preprocess depth fs source self = (self', Ok out) ->
  can_write m (output_name name stage) = true ->
  (forall msg, naga m (naga_stage stage) out <> No_temp msg) ->
  exists wgsl,
    process_shader m depth fs (name, source) self
    = (self', Ok [(output_name name stage, wgsl)]) /\
    (naga m (naga_stage stage) out = Converted wgsl \/
     exists head,
       startswith (py "// Conversion ") head = true /\
       wgsl = head ++ nl ++ out).
Proof.
  intros Hs Hp Hw Hn; unfold process_shader; rewrite Hs.
  unfold bind; rewrite Hp; unfold convert_glsl_to_wgsl.
  destruct (naga m (naga_stage stage) out) as [msg|wgsl|stderr|msg] eqn:E;
    [now destruct (Hn msg)| | |]; rewrite Hw; eexists; split;
    try reflexivity; auto; right.
  - exists (py "// Conversion failed: " ++ stderr); split; [reflexivity|].
    now rewrite <- !app_assoc.
  - exists (py "// Conversion error: " ++ msg); split; [reflexivity|].
    now rewrite <- !app_assoc.
Qed.

Lemma failed_conversion_keeps_source_witness :
  exists wgsl,
    process_shader
      {| naga := fun _ _ => Raised (py "[Errno 2] No such file or directory: 'naga'");
         can_write := fun _ => true |}
      1 (directory []) (py "fog.fsh", fog_source)
      (new_preprocessor (py "include"))
    = (fog_instance, Ok [(py "fog.frag.wgsl", wgsl)]) /\
    exists head, wgsl = head ++ nl ++ fog_output.
Proof.
  destruct (failed_conversion_keeps_source
              {| naga := fun _ _ => Raised (py "[Errno 2] No such file or directory: 'naga'");
                 can_write := fun _ => true |}
              1 (directory []) (py "fog.fsh") fog_source (py "fragment")
              (new_preprocessor (py "include")) fog_instance fog_output)
    as (wgsl & E & [H|(head & _ & H)]);
    try reflexivity; try discriminate.
  exists wgsl; split; [exact E|exists head; exact H].
Defined.
